(** * ChatClient (src/lib/chat.ts): a shallow embedding and its properties

    The definitions come first and follow the source file:

    - [Text]: JavaScript strings as sequences of UTF-16 code units, with the
      [String.prototype] methods the client calls ([lastIndexOf], [slice],
      [split]);
    - [Utf8]: [new TextDecoder("utf-8").decode(value)], one call per chunk;
    - [Js]: JavaScript values, property access, [ToBoolean], [ToString],
      exceptions as an error monad, and the [Runtime] class for what the
      engine supplies ([JSON.parse], [Number::toString]);
    - [Regex]: the pattern [/^data: (\{.*\})$/g] and [matchAll];
    - [Json]: [JSON.stringify] and a reference runtime;
    - [Chat]: the payload, [getChatResponse] and [getChatStream] with its
      read loop;
    - [Samples]: the values the closed examples use;
    - [Counting], [KeyOrder]: the measures and shapes the statements about
      line feeds and about the order of keys use.

    The properties follow: facts about strings, the pattern, the decoder and
    the loop, then [StreamSpec] (the stream frame reassembler) and
    [ClientSpec] (the payload and the non-streaming call). General theorems
    hold for every runtime; closed examples run on the reference runtime.

    Convention for literals: Rocq strings in this file are ASCII, and an
    apostrophe inside them stands for the double quote U+0022 (see [js]). *)

From Stdlib Require Import List ZArith Lia Bool String Ascii.
From Stdlib Require Import Strings.Byte.
From Stdlib Require Import Floats.SpecFloat.
From Stdlib Require Import Sorting.Sorted.
Import ListNotations.
Local Open Scope Z_scope.

(* ================================================================== *)
(** ** JavaScript strings *)

Module Text.

(** A UTF-16 code unit, [0 <= u < 65536]. *)
Definition code_unit := Z.

(** A JavaScript string: its code units in order. *)
Definition jsstring := list code_unit.

Definition DQUOTE : code_unit := 34.
Definition APOSTROPHE : code_unit := 39.
Definition LF : code_unit := 10.
Definition CR : code_unit := 13.
Definition LS : code_unit := 8232. (* U+2028 *)
Definition PS : code_unit := 8233. (* U+2029 *)

Definition unit_of_ascii (a : ascii) : code_unit :=
  let u := Z.of_N (N_of_ascii a) in
  if u =? APOSTROPHE then DQUOTE else u.

(** [js "..."]: the JavaScript string literal with these ASCII characters,
    an apostrophe standing for a double quote. *)
Fixpoint js (s : string) : jsstring :=
  match s with
  | EmptyString => []
  | String a rest => unit_of_ascii a :: js rest
  end.

Arguments js : simpl never.

Fixpoint eqb (s t : jsstring) : bool :=
  match s, t with
  | [], [] => true
  | a :: s', b :: t' => (a =? b) && eqb s' t'
  | _, _ => false
  end.

(** [s] without its prefix [lit], when it starts with it. *)
Fixpoint starts_with (lit s : jsstring) : option jsstring :=
  match lit, s with
  | [], _ => Some s
  | a :: lit', b :: s' => if a =? b then starts_with lit' s' else None
  | _ :: _, [] => None
  end.

(** [s.lastIndexOf("\n")] for a one-unit needle: the greatest index holding
    [c], or [-1]. [i] is the index of the head of [s]. *)
Fixpoint lastIndexOf_from (i : Z) (c : code_unit) (s : jsstring) : Z :=
  match s with
  | [] => -1
  | a :: rest =>
      let later := lastIndexOf_from (i + 1) c rest in
      if 0 <=? later then later else if a =? c then i else -1
  end.

Definition lastIndexOf (s : jsstring) (c : code_unit) : Z :=
  lastIndexOf_from 0 c s.

Definition length (s : jsstring) : Z := Z.of_nat (List.length s).

(** The index clamping of [String.prototype.slice]: a negative index counts
    from the end, and the result is kept within [0 .. len]. *)
Definition clamp (len i : Z) : Z :=
  if i <? 0 then Z.max (len + i) 0 else Z.min i len.

(** [s.slice(start, end)]; [end] omitted is [None]. *)
Definition slice (s : jsstring) (start : Z) (end_ : option Z) : jsstring :=
  let len := length s in
  let from := clamp len start in
  let to := match end_ with None => len | Some e => clamp len e end in
  firstn (Z.to_nat (Z.max (to - from) 0)) (skipn (Z.to_nat from) s).

(** [s.split(sep)] for a one-unit separator: the pieces between occurrences
    of [sep]; never empty ([[""]] for the empty string). *)
Fixpoint split (s : jsstring) (sep : code_unit) : list jsstring :=
  match s with
  | [] => [[]]
  | a :: rest =>
      if a =? sep then [] :: split rest sep
      else match split rest sep with
           | piece :: pieces => (a :: piece) :: pieces
           | [] => [[a]]
           end
  end.

(** The part of [s] up to and including its last [c], and the part after
    it; without a [c] the first part is empty. The loop of [getChatStream]
    computes the two parts with [lastIndexOf] and [slice]; see
    [TextFacts.slice_whole] and [TextFacts.slice_rest]. *)
Fixpoint cut (c : code_unit) (s : jsstring) : jsstring * jsstring :=
  match s with
  | [] => ([], [])
  | a :: rest =>
      let '(h, t) := cut c rest in
      match h with
      | _ :: _ => (a :: h, t)
      | [] => if a =? c then ([a], t) else ([], a :: t)
      end
  end.

Definition nonempty (s : jsstring) : bool := negb (eqb s []).

(** The non-empty pieces of [s] between line feeds. *)
Definition lines (s : jsstring) : list jsstring := filter nonempty (split s LF).

(** [s] is empty or ends with a line feed: it holds whole lines only. *)
Definition closed (s : jsstring) : Prop := s = [] \/ exists h, s = h ++ [LF].

End Text.

(* ================================================================== *)
(** ** [TextDecoder("utf-8")]

    [decoder.decode(value)] is called without [{ stream: true }]: every call
    starts from a fresh decoder and flushes at the end of its input, so an
    incomplete sequence at the end of a chunk is replaced by U+FFFD and the
    rest of the sequence, arriving with the next chunk, is malformed there.
    The decoder is the UTF-8 decoder of the Encoding standard, with the
    defaults [fatal = false] and [ignoreBOM = false]. *)

Module Utf8.

Definition REPLACEMENT : Z := 65533. (* U+FFFD *)
Definition BOM : Z := 65279.         (* U+FEFF *)

Record decoder := {
  code_point : Z;
  bytes_seen : Z;
  bytes_needed : Z;
  lower_boundary : Z;
  upper_boundary : Z
}.

Definition fresh : decoder :=
  {| code_point := 0; bytes_seen := 0; bytes_needed := 0;
     lower_boundary := 128; upper_boundary := 191 |}.

Definition within (lo hi b : Z) : bool := (lo <=? b) && (b <=? hi).

(** The handler when no byte is pending: the new state and the code points
    emitted (U+FFFD for a byte that cannot start a sequence). *)
Definition lead (b : Z) : decoder * list Z :=
  if within 0 127 b then (fresh, [b])
  else if within 194 223 b then
    ({| code_point := Z.land b 31; bytes_seen := 0; bytes_needed := 1;
        lower_boundary := 128; upper_boundary := 191 |}, [])
  else if within 224 239 b then
    ({| code_point := Z.land b 15; bytes_seen := 0; bytes_needed := 2;
        lower_boundary := (if b =? 224 then 160 else 128);
        upper_boundary := (if b =? 237 then 159 else 191) |}, [])
  else if within 240 244 b then
    ({| code_point := Z.land b 7; bytes_seen := 0; bytes_needed := 3;
        lower_boundary := (if b =? 240 then 144 else 128);
        upper_boundary := (if b =? 244 then 143 else 191) |}, [])
  else (fresh, [REPLACEMENT]).

(** One byte through the handler. A byte outside the boundaries of a pending
    sequence is an error for that sequence and is then handled again from the
    reset state (the standard restores it to the queue). *)
Definition handler (d : decoder) (b : Z) : decoder * list Z :=
  if bytes_needed d =? 0 then lead b
  else if negb (within (lower_boundary d) (upper_boundary d) b) then
    let '(d', out) := lead b in (d', REPLACEMENT :: out)
  else
    let cp := Z.lor (Z.shiftl (code_point d) 6) (Z.land b 63) in
    let seen := bytes_seen d + 1 in
    if seen =? bytes_needed d then (fresh, [cp])
    else ({| code_point := cp; bytes_seen := seen; bytes_needed := bytes_needed d;
             lower_boundary := 128; upper_boundary := 191 |}, []).

(** The whole input of one call; at end of input a pending sequence is an
    error. *)
Fixpoint run (d : decoder) (bytes : list Z) : list Z :=
  match bytes with
  | [] => if bytes_needed d =? 0 then [] else [REPLACEMENT]
  | b :: rest => let '(d', out) := handler d b in out ++ run d' rest
  end.

(** A code point as UTF-16 code units. *)
Definition utf16 (cp : Z) : Text.jsstring :=
  if cp <? 65536 then [cp]
  else [55296 + Z.shiftr (cp - 65536) 10; 56320 + Z.land (cp - 65536) 1023].

Definition strip_bom (cps : list Z) : list Z :=
  match cps with
  | cp :: rest => if cp =? BOM then rest else cps
  | [] => []
  end.

Definition byte_value (b : byte) : Z := Z.of_N (Byte.to_N b).

(** [decoder.decode(value)]. *)
Definition decode (value : list byte) : Text.jsstring :=
  flat_map utf16 (strip_bom (run fresh (map byte_value value))).

(** A byte below 0x80: a whole character on its own. *)
Definition is_ascii (b : byte) : bool := byte_value b <? 128.

(** The UTF-8 bytes of an ASCII literal (apostrophe for double quote). *)
Definition bytes (s : string) : list byte :=
  map (fun u => match Byte.of_N (Z.to_N u) with Some b => b | None => x00 end) (Text.js s).

End Utf8.

(* ================================================================== *)
(** ** JavaScript values, exceptions and the operators the client uses *)

Module Js.
Import Text.

(** A Number is an IEEE 754 binary64 value. *)
Definition number := spec_float.

Definition prec : Z := 53.
Definition emax : Z := 1024.

(** The Number nearest to [m * 10^e] (ties to even), as a decimal literal of
    the source or of a JSON text denotes it; [neg] is the sign. *)
Definition Number_of_decimal (neg : bool) (m e : Z) : number :=
  match m with
  | Zpos p =>
      if 0 <=? e then binary_normalize prec emax ((if neg then -1 else 1) * (m * 10 ^ e)) 0 neg
      else SFdiv prec emax (S754_finite neg p 0) (S754_finite false (Z.to_pos (10 ^ (- e))) 0)
  | _ => S754_zero neg
  end.

#[local] Unset Elimination Schemes.
Inductive value :=
| undefined
| null
| JBool (b : bool)
| JNum (n : number)
| JStr (s : jsstring)
| JArr (elems : list value)
| JObj (props : list (jsstring * value)).
#[local] Set Elimination Schemes.

(** The exceptions that reach the caller: [new Error(message)] of the source,
    the engine's [TypeError] (a property read on [undefined] or [null], a
    value without a primitive form) and [SyntaxError] ([JSON.parse]). *)
Inductive exn :=
| Error (message : jsstring)
| TypeError
| SyntaxError.

Inductive result (A : Type) :=
| Ok (a : A)
| Throw (e : exn).
Arguments Ok {A} a.
Arguments Throw {A} e.

Definition bind {A B} (r : result A) (k : A -> result B) : result B :=
  match r with
  | Ok a => k a
  | Throw e => Throw e
  end.

(** What the engine supplies and the source only calls. *)
Class Runtime := {
  (** [Number::toString] in radix 10. *)
  Number_toString : number -> jsstring;
  (** [JSON.parse(text)]; a text that is not JSON throws. *)
  JSON_parse : jsstring -> result value
}.

(** Own property [k] of an object literal or a parsed object. *)
Fixpoint lookup (props : list (jsstring * value)) (k : jsstring) : option value :=
  match props with
  | [] => None
  | (k', v) :: rest => if Text.eqb k' k then Some v else lookup rest k
  end.

(** An array index: the canonical decimal form of an integer from 0 to
    2^32 - 2 (digits only, no leading zero). *)
Definition digit (u : code_unit) : option N :=
  if (48 <=? u) && (u <=? 57) then Some (Z.to_N (u - 48)) else None.

Fixpoint decimal (acc : N) (s : jsstring) : option N :=
  match s with
  | [] => Some acc
  | u :: rest =>
      match digit u with
      | Some d => decimal (10 * acc + d) rest
      | None => None
      end
  end.

Definition array_index (k : jsstring) : option N :=
  match k with
  | [] => None
  | u :: rest =>
      if (u =? 48) && negb (Text.eqb rest []) then None
      else match decimal 0 k with
           | Some n => if (n <=? 4294967294)%N then Some n else None
           | None => None
           end
  end.

(** The properties of an object are held in the order the object enumerates
    them ([OrdinaryOwnPropertyKeys]): the array-index keys first, in
    ascending order, then the other keys in the order they were added. *)

(** [o[k] = v] for a key [o] has: the key keeps its place. *)
Fixpoint replace_prop (props : list (jsstring * value)) (k : jsstring) (v : value)
  : list (jsstring * value) :=
  match props with
  | [] => []
  | (k', v') :: rest =>
      if Text.eqb k' k then (k', v) :: rest else (k', v') :: replace_prop rest k v
  end.

(** A new key that is the array index [n]: it goes after the smaller array
    indices, before the larger ones and before every other key. *)
Fixpoint insert_index (n : N) (k : jsstring) (v : value) (props : list (jsstring * value))
  : list (jsstring * value) :=
  match props with
  | [] => [(k, v)]
  | (k', v') :: rest =>
      match array_index k' with
      | Some n' =>
          if (n' <? n)%N then (k', v') :: insert_index n k v rest
          else (k, v) :: props
      | None => (k, v) :: props
      end
  end.

(** [o[k] = v]: an existing key keeps its place; a new one goes among the
    array indices when it is one, and last otherwise. *)
Definition set_prop (props : list (jsstring * value)) (k : jsstring) (v : value)
  : list (jsstring * value) :=
  match lookup props k with
  | Some _ => replace_prop props k v
  | None =>
      match array_index k with
      | Some n => insert_index n k v props
      | None => props ++ [(k, v)]
      end
  end.

(** [v.k] for the property names this client reads ([error], [message],
    [choices], [finish_reason], [usage], [total_tokens]): none of them is a
    property, own or inherited, of an array, a string, a number or a boolean. *)
Definition Get (v : value) (k : jsstring) : result value :=
  match v with
  | undefined | null => Throw TypeError
  | JObj props => Ok (match lookup props k with Some x => x | None => undefined end)
  | _ => Ok undefined
  end.

(** [v?.k]: never throws. *)
Definition OptGet (v : value) (k : jsstring) : value :=
  match v with
  | JObj props => match lookup props k with Some x => x | None => undefined end
  | _ => undefined
  end.

(** [v[0]]: reading past the end of an array (or of a string) is [undefined],
    not an exception. *)
Definition GetIndex0 (v : value) : result value :=
  match v with
  | undefined | null => Throw TypeError
  | JArr elems => Ok (match elems with x :: _ => x | [] => undefined end)
  | JStr s => Ok (match s with u :: _ => JStr [u] | [] => undefined end)
  | JObj props => Ok (match lookup props (js "0") with Some x => x | None => undefined end)
  | _ => Ok undefined
  end.

(** [ToBoolean]: what [if (v)], [!v] and [filter(Boolean)] test. *)
Definition Boolean (v : value) : bool :=
  match v with
  | undefined | null => false
  | JBool b => b
  | JNum (S754_zero _) | JNum S754_nan => false
  | JNum _ => true
  | JStr s => negb (Text.eqb s [])
  | JArr _ | JObj _ => true
  end.

Definition isArray (v : value) : bool :=
  match v with
  | JArr _ => true
  | _ => false
  end.

(** [v === "..."] against a string literal. *)
Definition strict_equals_string (v : value) (s : jsstring) : bool :=
  match v with
  | JStr t => Text.eqb t s
  | _ => false
  end.

Fixpoint join (sep : jsstring) (parts : list jsstring) : jsstring :=
  match parts with
  | [] => []
  | [p] => p
  | p :: rest => p ++ sep ++ join sep rest
  end.

Section WithRuntime.
Context {rt : Runtime}.

(** [ToString]: a template literal's substitution and the argument of
    [new Error(...)]. A parsed object converts through
    [Object.prototype.toString] unless an own [toString] property (never a
    function in a parsed value) hides it; an array through [join]. *)
Fixpoint ToString (v : value) : result jsstring :=
  match v with
  | undefined => Ok (js "undefined")
  | null => Ok (js "null")
  | JBool true => Ok (js "true")
  | JBool false => Ok (js "false")
  | JNum n => Ok (Number_toString n)
  | JStr s => Ok s
  | JArr elems =>
      bind
        ((fix each (l : list value) : result (list jsstring) :=
            match l with
            | [] => Ok []
            | x :: rest =>
                bind (match x with
                      | undefined | null => Ok []
                      | _ => ToString x
                      end)
                     (fun s => bind (each rest) (fun ss => Ok (s :: ss)))
            end) elems)
        (fun parts => Ok (join (js ",") parts))
  | JObj props =>
      match lookup props (js "toString") with
      | Some _ => Throw TypeError
      | None => Ok (js "[object Object]")
      end
  end.

(** [throw new Error(v)]. *)
Definition throw_new_Error {A} (v : value) : result A :=
  match v with
  | undefined => Throw (Error [])
  | _ => bind (ToString v) (fun message => Throw (Error message))
  end.

End WithRuntime.

End Js.

(* ================================================================== *)
(** ** The frame pattern [/^data: (\{.*\})$/g]

    A backtracking matcher for the constructs the pattern uses: literal
    characters, the anchors [^] and [$] (no [m] flag: start and end of the
    input), the greedy [.*] ([.] is any code unit but a line terminator, no
    [s] flag) and one capture group. *)

Module Regex.
Import Text.

Inductive atom :=
| Caret
| Dollar
| Lit (c : code_unit)
| DotStar
| GroupOpen
| GroupClose.

Definition pattern := list atom.

Definition lits (s : string) : pattern := map Lit (js s).

(** [/^data: (\{.*\})$/] *)
Definition data_frame : pattern :=
  [Caret] ++ lits "data: " ++ [GroupOpen] ++ lits "{" ++ [DotStar] ++ lits "}"
  ++ [GroupClose; Dollar].

(** The characters [.] does not match. *)
Definition is_line_terminator (c : code_unit) : bool :=
  (c =? LF) || (c =? CR) || (c =? LS) || (c =? PS).

(** The matcher state: whether the position is the start of the input, the
    units consumed since the group opened (latest first), and the group's
    capture once closed. *)
Record mstate := {
  at_start : bool;
  open_group : option jsstring;
  capture : option jsstring
}.

Definition consume (c : code_unit) (st : mstate) : mstate :=
  {| at_start := false;
     open_group := option_map (cons c) (open_group st);
     capture := capture st |}.

Definition consume_all (l : jsstring) (st : mstate) : mstate :=
  fold_left (fun st c => consume c st) l st.

(** [match_here p s st]: match [p] at the head of [s]; the group's capture
    on success. The star takes as many units as it can and gives them back
    one at a time while the rest of the pattern fails. *)
Fixpoint match_here (p : pattern) (s : jsstring) (st : mstate) : option (option jsstring) :=
  match p with
  | [] => Some (capture st)
  | Caret :: p' => if at_start st then match_here p' s st else None
  | Dollar :: p' => match s with [] => match_here p' s st | _ :: _ => None end
  | Lit c :: p' =>
      match s with
      | a :: s' => if a =? c then match_here p' s' (consume a st) else None
      | [] => None
      end
  | DotStar :: p' =>
      (fix star (s : jsstring) (st : mstate) : option (option jsstring) :=
         match s with
         | a :: s' =>
             if is_line_terminator a then match_here p' s st
             else match star s' (consume a st) with
                  | Some r => Some r
                  | None => match_here p' s st
                  end
         | [] => match_here p' s st
         end) s st
  | GroupOpen :: p' =>
      match_here p' s {| at_start := at_start st; open_group := Some []; capture := capture st |}
  | GroupClose :: p' =>
      match_here p' s {| at_start := at_start st; open_group := None;
                         capture := option_map (@rev code_unit) (open_group st) |}
  end.

(** The first match of [p] in [s], searching start positions left to right:
    [[...s.matchAll(p)][0]]. The result is the match's group 1. *)
Fixpoint first_match_from (p : pattern) (s : jsstring) (start : bool) : option (option jsstring) :=
  match match_here p s {| at_start := start; open_group := None; capture := None |} with
  | Some r => Some r
  | None => match s with
            | _ :: s' => first_match_from p s' false
            | [] => None
            end
  end.

(** What [.*\}$] accepts: units that are no line terminators, then one
    closing brace at the very end. The matcher is shown to agree with it in
    [RegexFacts]. *)
Fixpoint closes_frame (s : jsstring) : bool :=
  match s with
  | [] => false
  | c :: rest =>
      match rest with
      | [] => c =? 125
      | _ :: _ => negb (is_line_terminator c) && closes_frame rest
      end
  end.

(** [[...wholeLine.matchAll(p)][0]?.[1]]: [None] is [undefined]. *)
Definition first_group (p : pattern) (wholeLine : jsstring) : option jsstring :=
  match first_match_from p wholeLine true with
  | Some r => r
  | None => None
  end.

End Regex.

(* ================================================================== *)
(** ** [JSON.stringify] and a reference runtime

    [JSON.stringify] is written over the runtime's number printing. The
    reference runtime supplies [Number::toString] and [JSON.parse] following
    ECMA-262 and ECMA-404, so closed terms of the model evaluate; the general
    theorems below hold for every runtime. *)

Module Json.
Import Text Js.

Definition hex_digit (d : Z) : code_unit :=
  if d <? 10 then 48 + d else 87 + d.

(** [\uXXXX], lower-case digits. *)
Definition unicode_escape (u : code_unit) : jsstring :=
  js "\u" ++ [hex_digit (Z.shiftr u 12 mod 16); hex_digit (Z.shiftr u 8 mod 16);
              hex_digit (Z.shiftr u 4 mod 16); hex_digit (u mod 16)].

Definition is_high_surrogate (u : code_unit) : bool := (55296 <=? u) && (u <=? 56319).
Definition is_low_surrogate (u : code_unit) : bool := (56320 <=? u) && (u <=? 57343).

(** The inside of [QuoteJSONString]. *)
Fixpoint quote_units (s : jsstring) : jsstring :=
  match s with
  | [] => []
  | u :: rest =>
      if u =? 8 then js "\b" ++ quote_units rest
      else if u =? 9 then js "\t" ++ quote_units rest
      else if u =? 10 then js "\n" ++ quote_units rest
      else if u =? 12 then js "\f" ++ quote_units rest
      else if u =? 13 then js "\r" ++ quote_units rest
      else if u =? DQUOTE then js "\'" ++ quote_units rest
      else if u =? 92 then js "\\" ++ quote_units rest
      else if u <? 32 then unicode_escape u ++ quote_units rest
      else if is_high_surrogate u then
        match rest with
        | v :: rest' =>
            if is_low_surrogate v then u :: v :: quote_units rest'
            else unicode_escape u ++ quote_units rest
        | [] => unicode_escape u
        end
      else if is_low_surrogate u then unicode_escape u ++ quote_units rest
      else u :: quote_units rest
  end.

Definition quote (s : jsstring) : jsstring := [DQUOTE] ++ quote_units s ++ [DQUOTE].

Section WithRuntime.
Context {rt : Runtime}.

(** [JSON.stringify(v)] without replacer or indentation, for data (no
    functions, no [toJSON]): [None] is [undefined]. A property whose value is
    [undefined] is left out of an object; in an array it is written [null]. *)
Fixpoint JSON_stringify (v : value) : option jsstring :=
  match v with
  | undefined => None
  | null => Some (js "null")
  | JBool true => Some (js "true")
  | JBool false => Some (js "false")
  | JNum (S754_finite _ _ _ as n) | JNum (S754_zero _ as n) => Some (Number_toString n)
  | JNum _ => Some (js "null")
  | JStr s => Some (quote s)
  | JArr elems =>
      Some (js "[" ++
            join (js ",")
              ((fix each (l : list value) : list jsstring :=
                  match l with
                  | [] => []
                  | x :: rest =>
                      match JSON_stringify x with
                      | Some t => t
                      | None => js "null"
                      end :: each rest
                  end) elems)
            ++ js "]")
  | JObj props =>
      Some (js "{" ++
            join (js ",")
              ((fix each (l : list (jsstring * value)) : list jsstring :=
                  match l with
                  | [] => []
                  | (k, x) :: rest =>
                      match JSON_stringify x with
                      | Some t => (quote k ++ js ":" ++ t) :: each rest
                      | None => each rest
                      end
                  end) props)
            ++ js "}")
  end.

End WithRuntime.

(** *** Reference [Number::toString] *)

(** Decimal digits of a non-negative integer, most significant first. *)
Fixpoint digits_fuel (fuel : nat) (n : Z) (acc : jsstring) : jsstring :=
  match fuel with
  | O => acc
  | S fuel' =>
      let acc' := (48 + n mod 10) :: acc in
      if n <? 10 then acc' else digits_fuel fuel' (n / 10) acc'
  end.

Definition digits (n : Z) : jsstring :=
  digits_fuel (S (Z.to_nat (Z.log2 n))) n [].

(** [m * 2^e] as a fraction [num / den] of positive integers, divided by
    [10^scale]. *)
Definition scaled_num (m e scale : Z) : Z := m * 2 ^ Z.max e 0 * 10 ^ Z.max (- scale) 0.
Definition scaled_den (e scale : Z) : Z := 2 ^ Z.max (- e) 0 * 10 ^ Z.max scale 0.

(** [10^n <= m * 2^e]. *)
Definition pow10_le (n m e : Z) : bool := scaled_den e n <=? scaled_num m e n.

(** The greatest [n] from [n0] upward with [10^n <= m * 2^e], plus one: the
    number of integer digits of [m * 2^e] ([<= 0] below one). *)
Fixpoint magnitude (fuel : nat) (n0 m e : Z) : Z :=
  match fuel with
  | O => n0
  | S fuel' => if pow10_le n0 m e then magnitude fuel' (n0 + 1) m e else n0
  end.

Definition same_number (a b : number) : bool :=
  match a, b with
  | S754_finite false ma ea, S754_finite false mb eb => (Z.pos ma =? Z.pos mb) && (ea =? eb)
  | _, _ => false
  end.

(** The shortest digit string [s] (with [k] digits, [k] from [k0] upward) and
    exponent [n] with [s * 10^(n-k)] reading back as [m * 2^e]; of two
    candidates the nearer one, the even one on a tie. *)
Fixpoint shortest (fuel : nat) (k n0 : Z) (m : positive) (e : Z) : Z * Z * Z :=
  let scale := n0 - k in
  let num := scaled_num (Z.pos m) e scale in
  let den := scaled_den e scale in
  let s1 := num / den in
  let s2 := s1 + 1 in
  let x := S754_finite false m e in
  let ok1 := same_number (Number_of_decimal false s1 scale) x in
  let ok2 := same_number (Number_of_decimal false s2 scale) x in
  let pick (s : Z) := if s =? 10 ^ k then (10 ^ (k - 1), n0 + 1, k) else (s, n0, k) in
  let nearer := match 2 * num ?= (s1 + s2) * den with
                | Lt => s1
                | Gt => s2
                | Eq => if Z.even s1 then s1 else s2
                end in
  match fuel with
  | O => pick nearer
  | S fuel' =>
      if ok1 && ok2 then pick nearer
      else if ok1 then pick s1
      else if ok2 then pick s2
      else shortest fuel' (k + 1) n0 m e
  end.

Definition zeros (n : Z) : jsstring := repeat 48 (Z.to_nat n).

(** Steps 6 to 10 of [Number::toString]: the layout of [s * 10^(n-k)]. *)
Definition layout (s n k : Z) : jsstring :=
  let ds := digits s in
  if (k <=? n) && (n <=? 21) then ds ++ zeros (n - k)
  else if (0 <? n) && (n <=? 21) then
    firstn (Z.to_nat n) ds ++ js "." ++ skipn (Z.to_nat n) ds
  else if (-6 <? n) && (n <=? 0) then js "0." ++ zeros (- n) ++ ds
  else
    let ex := n - 1 in
    let sign := if ex <? 0 then js "-" else js "+" in
    match ds with
    | d :: ((_ :: _) as more) => [d] ++ js "." ++ more ++ js "e" ++ sign ++ digits (Z.abs ex)
    | _ => ds ++ js "e" ++ sign ++ digits (Z.abs ex)
    end.

Definition reference_Number_toString (x : number) : jsstring :=
  match x with
  | S754_nan => js "NaN"
  | S754_zero _ => js "0"
  | S754_infinity s => (if s then js "-" else []) ++ js "Infinity"
  | S754_finite s m e =>
      let bits := Z.log2 (Z.pos m) + e in
      let n0 := magnitude 8 (bits * 30103 / 100000 - 2) (Z.pos m) e in
      let '(d, n, k) := shortest 16 1 n0 m e in
      (if s then js "-" else []) ++ layout d n k
  end.

(** *** Reference [JSON.parse] *)

Definition is_ws (u : code_unit) : bool :=
  (u =? 32) || (u =? 9) || (u =? 10) || (u =? 13).

Fixpoint skip_ws (s : jsstring) : jsstring :=
  match s with
  | u :: rest => if is_ws u then skip_ws rest else s
  | [] => []
  end.

Definition is_digit (u : code_unit) : bool := (48 <=? u) && (u <=? 57).

Definition hex_value (u : code_unit) : option Z :=
  if is_digit u then Some (u - 48)
  else if (97 <=? u) && (u <=? 102) then Some (u - 87)
  else if (65 <=? u) && (u <=? 70) then Some (u - 55)
  else None.

Definition simple_escape (u : code_unit) : option code_unit :=
  if u =? DQUOTE then Some DQUOTE
  else if u =? 92 then Some 92
  else if u =? 47 then Some 47
  else if u =? 98 then Some 8
  else if u =? 102 then Some 12
  else if u =? 110 then Some 10
  else if u =? 114 then Some 13
  else if u =? 116 then Some 9
  else None.

(** The units of a string after its opening quote, up to the closing one. *)
Fixpoint parse_string (s : jsstring) (acc : jsstring) : option (jsstring * jsstring) :=
  match s with
  | [] => None
  | u :: rest =>
      if u =? DQUOTE then Some (rev acc, rest)
      else if u <? 32 then None
      else if u =? 92 then
        match rest with
        | e :: rest1 =>
            if e =? 117 then
              match rest1 with
              | a :: b :: c :: d :: rest2 =>
                  match hex_value a, hex_value b, hex_value c, hex_value d with
                  | Some ha, Some hb, Some hc, Some hd =>
                      parse_string rest2 ((((ha * 16 + hb) * 16 + hc) * 16 + hd) :: acc)
                  | _, _, _, _ => None
                  end
              | _ => None
              end
            else
              match simple_escape e with
              | Some x => parse_string rest1 (x :: acc)
              | None => None
              end
        | [] => None
        end
      else parse_string rest (u :: acc)
  end.

(** A run of digits: its value continuing [acc], how many, and the rest. *)
Fixpoint parse_digits (s : jsstring) (acc : Z) (n : Z) : Z * Z * jsstring :=
  match s with
  | u :: rest => if is_digit u then parse_digits rest (acc * 10 + (u - 48)) (n + 1) else (acc, n, s)
  | [] => (acc, n, [])
  end.

(** [-? int frac? exp?]; an integer part with a leading zero is just [0]. *)
Definition parse_number (s : jsstring) : option (value * jsstring) :=
  let '(neg, s1) := match s with
                    | u :: rest => if u =? 45 then (true, rest) else (false, s)
                    | [] => (false, s)
                    end in
  let int_part :=
    match s1 with
    | u :: rest =>
        if u =? 48 then Some (0, rest)
        else if is_digit u then let '(m, _, r) := parse_digits s1 0 0 in Some (m, r)
        else None
    | [] => None
    end in
  match int_part with
  | None => None
  | Some (m, s2) =>
      let frac :=
        match s2 with
        | u :: rest =>
            if u =? 46 then
              let '(m', n, r) := parse_digits rest m 0 in
              if n =? 0 then None else Some (m', n, r)
            else Some (m, 0, s2)
        | [] => Some (m, 0, s2)
        end in
      match frac with
      | None => None
      | Some (m', nfrac, s3) =>
          let expo :=
            match s3 with
            | u :: rest =>
                if (u =? 101) || (u =? 69) then
                  let '(eneg, r1) := match rest with
                                     | v :: rest' =>
                                         if v =? 45 then (true, rest')
                                         else if v =? 43 then (false, rest')
                                         else (false, rest)
                                     | [] => (false, rest)
                                     end in
                  let '(ex, n, r2) := parse_digits r1 0 0 in
                  if n =? 0 then None else Some ((if eneg then - ex else ex), r2)
                else Some (0, s3)
            | [] => Some (0, s3)
            end in
          match expo with
          | None => None
          | Some (ex, s4) => Some (JNum (Number_of_decimal neg m' (ex - nfrac)), s4)
          end
      end
  end.

(** A JSON value at the head of [s] (after white space) and the rest. The
    fuel bounds the nesting; [2 * length + 2] is enough for every text. A
    repeated key keeps its first place and takes the last value. *)
Fixpoint parse_value (fuel : nat) (s : jsstring) : option (value * jsstring) :=
  match fuel with
  | O => None
  | S fuel' =>
      match skip_ws s with
      | [] => None
      | u :: rest =>
          if u =? 123 then
            match skip_ws rest with
            | v :: rest' => if v =? 125 then Some (JObj [], rest')
                            else parse_members fuel' (v :: rest') []
            | [] => None
            end
          else if u =? 91 then
            match skip_ws rest with
            | v :: rest' => if v =? 93 then Some (JArr [], rest')
                            else parse_elements fuel' (v :: rest') []
            | [] => None
            end
          else if u =? DQUOTE then
            match parse_string rest [] with
            | Some (str, r) => Some (JStr str, r)
            | None => None
            end
          else
            match starts_with (js "true") (u :: rest),
                  starts_with (js "false") (u :: rest),
                  starts_with (js "null") (u :: rest) with
            | Some r, _, _ => Some (JBool true, r)
            | _, Some r, _ => Some (JBool false, r)
            | _, _, Some r => Some (null, r)
            | _, _, _ => parse_number (u :: rest)
            end
      end
  end
with parse_elements (fuel : nat) (s : jsstring) (acc : list value) : option (value * jsstring) :=
  match fuel with
  | O => None
  | S fuel' =>
      match parse_value fuel' s with
      | None => None
      | Some (v, r) =>
          match skip_ws r with
          | u :: r' =>
              if u =? 44 then parse_elements fuel' r' (v :: acc)
              else if u =? 93 then Some (JArr (rev (v :: acc)), r')
              else None
          | [] => None
          end
      end
  end
with parse_members (fuel : nat) (s : jsstring) (acc : list (jsstring * value)) : option (value * jsstring) :=
  match fuel with
  | O => None
  | S fuel' =>
      match skip_ws s with
      | q :: s1 =>
          if q =? DQUOTE then
            match parse_string s1 [] with
            | None => None
            | Some (k, s2) =>
                match skip_ws s2 with
                | c :: s3 =>
                    if c =? 58 then
                      match parse_value fuel' s3 with
                      | None => None
                      | Some (v, r) =>
                          match skip_ws r with
                          | u :: r' =>
                              if u =? 44 then parse_members fuel' r' (set_prop acc k v)
                              else if u =? 125 then Some (JObj (set_prop acc k v), r')
                              else None
                          | [] => None
                          end
                      end
                    else None
                | [] => None
                end
            end
          else None
      | [] => None
      end
  end.

Definition reference_JSON_parse (text : jsstring) : result value :=
  match parse_value (2 * List.length text + 2) text with
  | Some (v, rest) =>
      match skip_ws rest with
      | [] => Ok v
      | _ :: _ => Throw SyntaxError
      end
  | None => Throw SyntaxError
  end.

Definition reference : Runtime :=
  {| Number_toString := reference_Number_toString;
     JSON_parse := reference_JSON_parse |}.

End Json.

(* ================================================================== *)
(** ** The client: [class ChatClient] *)

Module Chat.
Import Text Js.

Definition props := list (jsstring * value).

(** [{ ...target, ...source }]: the own properties of [source] assigned in
    order onto [target]. [config] is optional in both methods; spreading
    [undefined] ([None]) adds nothing. *)
Definition spread (target : props) (source : option props) : props :=
  match source with
  | Some ps => fold_left (fun acc kv => set_prop acc (fst kv) (snd kv)) ps target
  | None => target
  end.

(** The object literal that opens both methods:
    [{ messages, temperature: 0.7, top_p: 1, frequency_penalty: 0,
       presence_penalty: 0, max_tokens: 60, stop: "", ...config }]. *)
Definition defaults : props :=
  [ (js "temperature", JNum (Number_of_decimal false 7 (-1)));
    (js "top_p", JNum (Number_of_decimal false 1 0));
    (js "frequency_penalty", JNum (Number_of_decimal false 0 0));
    (js "presence_penalty", JNum (Number_of_decimal false 0 0));
    (js "max_tokens", JNum (Number_of_decimal false 60 0));
    (js "stop", JStr []) ].

Definition payload (messages : value) (config : option props) : props :=
  spread ((js "messages", messages) :: defaults) config.

(** [{ ...payload, stream: true }], the object [getChatStream] sends. *)
Definition stream_payload (messages : value) (config : option props) : props :=
  set_prop (payload messages config) (js "stream") (JBool true).

(** The value [config] holds for the field [k], if it names it. In a list
    that names a key twice the later entry is the later assignment (an
    object holds a key once: see [ClientFacts.supplied_distinct]). *)
Definition supplied (config : option props) (k : jsstring) : option value :=
  match config with
  | Some cfg => lookup (rev cfg) k
  | None => None
  end.

(** The argument of [fetch] (the abort signal is not part of the model). *)
Record Request := {
  url : jsstring;
  method : jsstring;
  headers : list (jsstring * jsstring);
  body : option jsstring
}.

(** What [fetch] resolves to: the status line and the body as the chunks its
    reader delivers, in order, before [done]. *)
Record Response := {
  ok : bool;
  status : Z;
  statusText : jsstring;
  chunks : option (list (list byte))
}.

(** [await res.text()]. *)
Definition text (res : Response) : jsstring :=
  match chunks res with
  | Some reads => Utf8.decode (List.concat reads)
  | None => []
  end.

Record ChatClient := {
  endpoint : jsstring;
  apiKey : jsstring
}.

(** What a consumer of the async generator observes: the items yielded, in
    order, and then either the generator's return or the exception thrown. *)
Record run := {
  yielded : list value;
  thrown : option exn
}.

Definition returns (items : list value) : run := {| yielded := items; thrown := None |}.
Definition throws (items : list value) (e : exn) : run := {| yielded := items; thrown := Some e |}.

(** [r] followed, if it did not throw, by [k]. *)
Definition andThen (r : run) (k : run) : run :=
  match thrown r with
  | Some e => r
  | None => {| yielded := yielded r ++ yielded k; thrown := thrown k |}
  end.

(** The state of the read loop and what one iteration computes from it. *)
Definition currentWindow (unfinishedLine chunk : jsstring) : jsstring :=
  unfinishedLine ++ chunk.

Definition next_unfinishedLine (currentWindow : jsstring) : jsstring :=
  slice currentWindow (lastIndexOf currentWindow LF + 1) None.

Definition wholeLines (currentWindow : jsstring) : list jsstring :=
  filter (fun line => Boolean (JStr line))
    (split (slice currentWindow 0 (Some (lastIndexOf currentWindow LF + 1))) LF).

Definition of_option (o : option jsstring) : value :=
  match o with
  | Some s => JStr s
  | None => undefined
  end.

Definition matches (wholeLines : list jsstring) : list (option jsstring) :=
  filter (fun m => Boolean (of_option m))
    (map (fun wholeLine => Regex.first_group Regex.data_frame wholeLine) wholeLines).

(** The text the loop has received once it has taken [reads]: each chunk
    decoded on its own, in order. *)
Definition decoded (reads : list (list byte)) : jsstring :=
  List.concat (map Utf8.decode reads).

(** The frames of the text received: the captures of its whole lines that
    match the pattern, in order. *)
Definition frames (reads : list (list byte)) : list (option jsstring) :=
  matches (wholeLines (decoded reads)).

Section WithRuntime.
Context {rt : Runtime}.

Definition request (this : ChatClient) (body : props) : Request :=
  {| url := endpoint this;
     method := js "post";
     headers := [(js "Content-Type", js "application/json"); (js "api-key", apiKey this)];
     body := Json.JSON_stringify (JObj body) |}.

(** [await res.json()]. *)
Definition json (res : Response) : result value := JSON_parse (text res).

(** The requests the two methods hand to [fetch]. *)
Definition getChatResponse_request (this : ChatClient) (messages : value)
    (config : option props) : Request :=
  request this (payload messages config).

Definition getChatStream_request (this : ChatClient) (messages : value)
    (config : option props) : Request :=
  request this (stream_payload messages config).

(** [result.choices[0]?.finish_reason] *)
Definition top_finish_reason (result : value) : Js.result value :=
  bind (Get result (js "choices")) (fun choices =>
  bind (GetIndex0 choices) (fun top =>
  Ok (OptGet top (js "finish_reason")))).

(** [getChatResponse]: [fetch] stands for the network, answering the request
    with a response or a rejection. The [catch] block logs and rethrows, so
    the exception that leaves the method is the one raised inside [try]. The
    argument of [console.log] is evaluated before the call: its [title] and
    [tokenUsage] read [result.usage.total_tokens], which throws when [usage]
    is missing; [topChoice] uses optional chaining and cannot throw. *)
Definition getChatResponse (this : ChatClient) (fetch : Request -> result Response)
    (messages : value) (config : option props) : result value :=
  bind (fetch (getChatResponse_request this messages config)) (fun res =>
  bind (json res) (fun result =>
  bind (Get result (js "error")) (fun error =>
  if Boolean error then
    bind (Get error (js "message")) (fun message => throw_new_Error message)
  else
    bind (top_finish_reason result) (fun finish_reason =>
    if negb (strict_equals_string finish_reason (js "stop")) then
      bind (ToString finish_reason) (fun reason =>
        Throw (Error (js "Chat stopped due to " ++ reason)))
    else
      bind (Get result (js "usage")) (fun usage =>
      bind (Get usage (js "total_tokens")) (fun total_tokens =>
      bind (ToString total_tokens) (fun _ =>
      Ok result))))))).

(** The body of [for (const match of matches)] for one match. *)
Definition parse_item (m : option jsstring) : result value :=
  bind (match m with
        | Some s => JSON_parse s
        | None => Throw SyntaxError
        end) (fun item =>
  let message := OptGet (OptGet item (js "error")) (js "message") in
  if Boolean message then throw_new_Error message
  else if negb (isArray (OptGet item (js "choices"))) then
    Throw (Error (js "Invalid response"))
  else Ok item).

(** [for (const match of matches) { ...; yield item; }] *)
Fixpoint for_matches (matches : list (option jsstring)) : run :=
  match matches with
  | [] => returns []
  | m :: rest =>
      match parse_item m with
      | Throw e => throws [] e
      | Ok item => andThen (returns [item]) (for_matches rest)
      end
  end.

(** [while (true) { const { done, value } = await reader.read(); ... }] over
    the chunks the reader delivers; the empty list is [done]. *)
Fixpoint read_loop (reads : list (list byte)) (unfinishedLine : jsstring) : run :=
  match reads with
  | [] => returns []
  | value :: later =>
      let chunk := Utf8.decode value in
      let currentWindow := currentWindow unfinishedLine chunk in
      let unfinishedLine := next_unfinishedLine currentWindow in
      let wholeLines := wholeLines currentWindow in
      let matches := matches wholeLines in
      andThen (for_matches matches) (read_loop later unfinishedLine)
  end.

(** [unfinishedLine] after the loop has taken [reads] (and not thrown). *)
Definition unfinishedLine_after (reads : list (list byte)) : jsstring :=
  fold_left (fun unfinishedLine value =>
               next_unfinishedLine (currentWindow unfinishedLine (Utf8.decode value)))
            reads [].

(** The whole lines the loop has handed to the pattern while taking [reads],
    in order. *)
Fixpoint wholeLines_of (reads : list (list byte)) (unfinishedLine : jsstring) : list jsstring :=
  match reads with
  | [] => []
  | value :: later =>
      let currentWindow := currentWindow unfinishedLine (Utf8.decode value) in
      wholeLines currentWindow ++ wholeLines_of later (next_unfinishedLine currentWindow)
  end.

(** [getChatStream], run to its end by a consumer that takes every item.
    The abort signal is handed to [fetch] and is not part of the model. *)
Definition getChatStream (this : ChatClient) (fetch : Request -> result Response)
    (messages : value) (config : option props) : run :=
  match fetch (getChatStream_request this messages config) with
  | Throw e => throws [] e
  | Ok stream =>
      if negb (ok stream) then
        throws [] (Error (js "Request failed: " ++
                          join (js " ") [Number_toString (Number_of_decimal false (status stream) 0);
                                         statusText stream; text stream]))
      else
        match chunks stream with
        | None => throws [] (Error (js "Request failed"))
        | Some reads => read_loop reads []
        end
  end.

End WithRuntime.

End Chat.

(* ================================================================== *)
(** ** Sample values for the closed examples *)

Module Samples.
Import Text Js.

(** [{"choices": elems}] *)
Definition choices_frame (elems : list value) : value :=
  JObj [(js "choices", JArr elems)].

Definition one : value := JNum (Number_of_decimal false 1 0).

(** [{"choices":[{"delta":{"content": content}}]}] *)
Definition content_frame (content : jsstring) : value :=
  choices_frame [JObj [(js "delta", JObj [(js "content", JStr content)])]].

Definition client : Chat.ChatClient :=
  {| Chat.endpoint := js "https://example.test/chat"; Chat.apiKey := js "key" |}.

(** A network that answers every request with status 200 and this body. *)
Definition answers (body : list byte) (_ : Chat.Request) : result Chat.Response :=
  Ok {| Chat.ok := true; Chat.status := 200; Chat.statusText := js "OK";
        Chat.chunks := Some [body] |}.

(** [[{ role: "user", content: text }]] *)
Definition user_says (text : string) : value :=
  JArr [JObj [(js "role", JStr (js "user")); (js "content", JStr (js text))]].

(** The frame of the specification's example, as a stream of one frame and
    a blank line. *)
Definition hi_frame : string :=
  "{'choices':[{'index':0,'delta':{'content':'hi'},'finish_reason':null}]}".

Definition hi_stream : list byte :=
  Utf8.bytes "data: " ++ Utf8.bytes hi_frame ++ [x0a; x0a].

Definition hi_item : value :=
  choices_frame
    [JObj [(js "index", JNum (Number_of_decimal false 0 0));
           (js "delta", JObj [(js "content", JStr (js "hi"))]);
           (js "finish_reason", null)]].

(** Response bodies of the non-streaming call. *)
Definition stop_response : string :=
  "{'choices':[{'finish_reason':'stop','index':0,'message':{'role':'assistant','content':'hello'}}],'usage':{'completion_tokens':1,'prompt_tokens':2,'total_tokens':3}}".

Definition length_response : string :=
  "{'choices':[{'finish_reason':'length','index':0,'message':{'role':'assistant','content':'hello'}}],'usage':{'completion_tokens':1,'prompt_tokens':2,'total_tokens':3}}".

Definition stop_response_without_usage : string :=
  "{'choices':[{'finish_reason':'stop','index':0,'message':{'role':'assistant','content':'hello'}}]}".

Definition empty_choices_response : string :=
  "{'choices':[],'usage':{'completion_tokens':0,'prompt_tokens':2,'total_tokens':2}}".

End Samples.

(** ** Counting line feeds

    The measures the statements about lines use, and the condition under
    which the decoder holds a pending sequence. *)

Module Counting.
Import Text Utf8.

(** Line feeds in a list of code units, code points or byte values. *)
Definition line_feeds (s : list Z) : nat := count_occ Z.eq_dec s LF.

(** Line-feed bytes (0x0A) in what the reader delivered. *)
Definition line_feed_bytes (value : list byte) : nat := count_occ byte_eq_dec value x0a.

(** A decoder in the middle of a sequence holds a code point and boundaries
    from which the sequence, if it completes, gives a code point of 16 or
    more: either bits are already set, or the lower boundary is raised (after
    the lead bytes 0xE0 and 0xF0). *)
Definition pending_ok (d : decoder) : Prop :=
  bytes_needed d <> 0 ->
  0 <= code_point d /\ 128 <= lower_boundary d /\ upper_boundary d <= 191
  /\ (1 <= code_point d \/ 144 <= lower_boundary d).

End Counting.

(** ** The order of keys

    What the statements about the order of the payload's keys say of a run
    of array indices and of the keys that follow it. *)

Module KeyOrder.
Import Text Js.

(** A key paired with the array index it denotes. *)
Definition indexed (kn : jsstring * N) : Prop := array_index (fst kn) = Some (snd kn).

(** No array index opens [rest]. *)
Definition not_index_first (rest : list (jsstring * value)) : Prop :=
  match rest with
  | [] => True
  | (k, _) :: _ => array_index k = None
  end.

(** The shape of the keys of a payload in the making, [cfg] being what has
    been spread so far: array indices in ascending order, the fields of the
    literal, the other keys added. *)
Definition payload_shape (cfg : list (jsstring * value)) (keys : list jsstring) : Prop :=
  exists (indices : list (jsstring * N)) (extra : list jsstring),
    keys = map fst indices
           ++ map js ["messages"; "temperature"; "top_p"; "frequency_penalty";
                      "presence_penalty"; "max_tokens"; "stop"]%string
           ++ extra
    /\ Forall indexed indices
    /\ StronglySorted N.le (map snd indices)
    /\ Forall (fun k => array_index k = None) extra
    /\ (forall k, In k (map fst indices ++ extra) -> In k (map fst cfg)).

End KeyOrder.

(* ================================================================== *)
(** * Properties *)

(** ** Strings: [lastIndexOf], [slice] and [split] *)

Module TextFacts.
Import Text.

Lemma eqb_eq (s t : jsstring) : eqb s t = true <-> s = t.
Proof.
  revert t; induction s as [|a s IH]; intros [|b t]; simpl; split; try congruence; auto.
  - intros H. apply andb_true_iff in H as [Hab Hst].
    apply Z.eqb_eq in Hab. apply IH in Hst. congruence.
  - intros H. injection H as -> ->. rewrite Z.eqb_refl. simpl. now apply IH.
Qed.

Lemma eqb_refl (s : jsstring) : eqb s s = true.
Proof. now apply eqb_eq. Qed.

Lemma eqb_neq (s t : jsstring) : eqb s t = false <-> s <> t.
Proof.
  split.
  - intros H E. apply eqb_eq in E. congruence.
  - intros H. destruct (eqb s t) eqn:E; auto. apply eqb_eq in E. contradiction.
Qed.

Lemma starts_with_spec (lit s rest : jsstring) :
  starts_with lit s = Some rest <-> s = lit ++ rest.
Proof.
  revert s; induction lit as [|a lit IH]; intros s; simpl.
  - split; congruence.
  - destruct s as [|b s]; [split; discriminate|].
    destruct (Z.eqb_spec a b) as [-> | Hab].
    + rewrite IH. split; congruence.
    + split; [discriminate | congruence].
Qed.

Lemma cut_app (c : code_unit) (s : jsstring) : fst (cut c s) ++ snd (cut c s) = s.
Proof.
  induction s as [|a s IH]; simpl; auto.
  destruct (cut c s) as [h t]; simpl in *.
  destruct h as [|x h]; simpl in *.
  - destruct (a =? c); simpl; congruence.
  - congruence.
Qed.

Lemma cut_rest_no_sep (c : code_unit) (s : jsstring) : ~ In c (snd (cut c s)).
Proof.
  induction s as [|a s IH]; simpl; auto.
  destruct (cut c s) as [h t]; simpl in *.
  destruct h as [|x h]; simpl; auto.
  destruct (Z.eqb_spec a c); simpl; auto.
  intros [E | H]; auto.
Qed.

Lemma cut_whole_ends (c : code_unit) (s : jsstring) :
  fst (cut c s) = [] \/ exists h, fst (cut c s) = h ++ [c].
Proof.
  induction s as [|a s IH]; simpl; auto.
  destruct (cut c s) as [h t]; simpl in *.
  destruct h as [|x h]; simpl.
  - destruct (Z.eqb_spec a c); simpl; auto.
    subst. right. now exists [].
  - right. destruct IH as [IH | [h' IH]]; [discriminate|].
    exists (a :: h'). simpl. now rewrite IH.
Qed.

Lemma cut_no_sep (c : code_unit) (s : jsstring) : ~ In c s -> cut c s = ([], s).
Proof.
  induction s as [|a s IH]; simpl; auto.
  intros H. rewrite IH by tauto.
  destruct (Z.eqb_spec a c); auto. subst. tauto.
Qed.

Lemma cut_sep_app (c : code_unit) (h y : jsstring) :
  cut c (h ++ c :: y) = (h ++ c :: fst (cut c y), snd (cut c y)).
Proof.
  induction h as [|a h IH]; simpl.
  - destruct (cut c y) as [h' t]. simpl.
    destruct h'; auto. now rewrite Z.eqb_refl.
  - rewrite IH. destruct h; reflexivity.
Qed.

Lemma lastIndexOf_from_cut (c : code_unit) (s : jsstring) (i : Z) :
  0 <= i ->
  lastIndexOf_from i c s =
    match fst (cut c s) with
    | [] => -1
    | _ :: _ => i + length (fst (cut c s)) - 1
    end.
Proof.
  revert i; induction s as [|a s IH]; intros i Hi; simpl; auto.
  rewrite IH by lia.
  destruct (cut c s) as [h t]; simpl.
  destruct h as [|x h]; simpl.
  - destruct (Z.eqb_spec a c); simpl; auto. unfold length. simpl. lia.
  - unfold length. simpl List.length.
    destruct (Z.leb_spec 0 (i + 1 + Z.of_nat (S (List.length h)) - 1)); lia.
Qed.

Lemma lastIndexOf_cut (c : code_unit) (s : jsstring) :
  lastIndexOf s c + 1 = length (fst (cut c s)).
Proof.
  unfold lastIndexOf. rewrite lastIndexOf_from_cut by lia.
  destruct (fst (cut c s)); unfold length; simpl List.length; lia.
Qed.

Lemma length_cut_le (c : code_unit) (s : jsstring) :
  (List.length (fst (cut c s)) <= List.length s)%nat.
Proof.
  rewrite <- (cut_app c s) at 2. rewrite length_app. lia.
Qed.

(** [currentWindow.slice(0, currentWindow.lastIndexOf("\n") + 1)] *)
Lemma slice_whole (c : code_unit) (s : jsstring) :
  slice s 0 (Some (lastIndexOf s c + 1)) = fst (cut c s).
Proof.
  unfold slice. rewrite lastIndexOf_cut.
  pose proof (cut_app c s) as E.
  destruct (cut c s) as [h t]; simpl in *. subst s.
  unfold clamp, length. rewrite length_app.
  destruct (Z.ltb_spec 0 0); [lia|].
  destruct (Z.ltb_spec (Z.of_nat (List.length h)) 0); [lia|].
  rewrite !Z.min_l by lia. simpl skipn.
  rewrite Z.max_l by lia. rewrite Z.sub_0_r, Nat2Z.id.
  now rewrite firstn_app, Nat.sub_diag, firstn_all, firstn_O, app_nil_r.
Qed.

(** [currentWindow.slice(currentWindow.lastIndexOf("\n") + 1)] *)
Lemma slice_rest (c : code_unit) (s : jsstring) :
  slice s (lastIndexOf s c + 1) None = snd (cut c s).
Proof.
  unfold slice. rewrite lastIndexOf_cut.
  pose proof (cut_app c s) as E.
  destruct (cut c s) as [h t]; simpl in *. subst s.
  unfold clamp, length. rewrite length_app.
  destruct (Z.ltb_spec (Z.of_nat (List.length h)) 0); [lia|].
  rewrite Z.min_l by lia. rewrite Nat2Z.id.
  rewrite Z.max_l by lia.
  rewrite skipn_app, Nat.sub_diag, skipn_all, skipn_O. simpl.
  apply firstn_all2. lia.
Qed.

Lemma split_nonempty (s : jsstring) (sep : code_unit) : split s sep <> [].
Proof.
  induction s as [|a s IH]; simpl; [discriminate|].
  destruct (a =? sep); [discriminate|].
  destruct (split s sep); discriminate.
Qed.

Lemma split_sep_app (sep : code_unit) (h t : jsstring) :
  split (h ++ sep :: t) sep = split h sep ++ split t sep.
Proof.
  induction h as [|a h IH]; simpl.
  - now rewrite Z.eqb_refl.
  - destruct (a =? sep); simpl; [now rewrite IH|].
    rewrite IH. pose proof (split_nonempty h sep).
    destruct (split h sep); [contradiction|reflexivity].
Qed.

Lemma split_no_sep (sep : code_unit) (s : jsstring) : ~ In sep s -> split s sep = [s].
Proof.
  induction s as [|a s IH]; simpl; auto.
  intros H. destruct (Z.eqb_spec a sep); [subst; tauto|].
  rewrite IH by tauto. reflexivity.
Qed.

Lemma lines_sep_app (h t : jsstring) : lines (h ++ LF :: t) = lines h ++ lines t.
Proof. unfold lines. now rewrite split_sep_app, filter_app. Qed.

Lemma lines_closed_app (h t : jsstring) : closed h -> lines (h ++ t) = lines h ++ lines t.
Proof.
  intros [-> | [h' ->]]; [reflexivity|].
  rewrite <- app_assoc. simpl. rewrite !lines_sep_app.
  unfold lines at 3. simpl. now rewrite app_nil_r.
Qed.

Lemma cut_closed_app (h y : jsstring) :
  closed h -> cut LF (h ++ y) = (h ++ fst (cut LF y), snd (cut LF y)).
Proof.
  intros [-> | [h' ->]].
  - simpl. now destruct (cut LF y).
  - rewrite <- !app_assoc. simpl. apply cut_sep_app.
Qed.

Lemma closed_cut (s : jsstring) : closed (fst (cut LF s)).
Proof. exact (cut_whole_ends LF s). Qed.

Lemma closed_app (a b : jsstring) : closed a -> closed b -> closed (a ++ b).
Proof.
  intros Ha [-> | [h ->]].
  - now rewrite app_nil_r.
  - right. exists (a ++ h). now rewrite app_assoc.
Qed.

Lemma split_head (sep : code_unit) (s p : jsstring) (ps : list jsstring) :
  split s sep = p :: ps ->
  ~ In sep p /\ exists a, s = p ++ a /\ (a = [] \/ exists a', a = sep :: a').
Proof.
  revert p ps; induction s as [|x r IH]; intros p ps; simpl.
  - intros E. injection E as <- <-. split; [tauto|]. exists []. auto.
  - destruct (Z.eqb_spec x sep) as [-> | Hx].
    + intros E. injection E as <- <-. split; [tauto|]. exists (sep :: r). eauto.
    + destruct (split r sep) as [|q qs] eqn:Er; intros E; injection E as <- <-.
      * now apply split_nonempty in Er.
      * destruct (IH q qs eq_refl) as [Hq [a [-> Ha]]].
        split; [simpl; intros [E | H]; [congruence | tauto]|].
        exists a. auto.
Qed.

Lemma split_tail_piece (sep : code_unit) (s p0 p : jsstring) (ps : list jsstring) :
  split s sep = p0 :: ps -> In p ps ->
  ~ In sep p /\
  exists b a, s = (b ++ [sep]) ++ p ++ a /\ (a = [] \/ exists a', a = sep :: a').
Proof.
  revert p0 ps; induction s as [|x r IH]; intros p0 ps; simpl.
  - intros E. injection E as <- <-. intros [].
  - destruct (Z.eqb_spec x sep) as [-> | Hx].
    + intros E Hin. injection E as <- <-.
      destruct (split r sep) as [|q qs] eqn:Er; [destruct Hin|].
      destruct Hin as [<- | Hin].
      * destruct (split_head sep r q qs Er) as [Hq [a [-> Ha]]].
        split; [assumption|]. exists [], a. auto.
      * destruct (IH q qs eq_refl Hin) as [Hp [b [a [-> Ha]]]].
        split; [assumption|]. exists (sep :: b), a. auto.
    + destruct (split r sep) as [|q qs] eqn:Er; intros E Hin; injection E as <- <-.
      * destruct Hin.
      * destruct (IH q qs eq_refl Hin) as [Hp [b [a [-> Ha]]]].
        split; [assumption|]. exists (x :: b), a. auto.
Qed.

(** A non-empty piece of a text that holds whole lines only is one of its
    lines: it starts the text or follows a line feed, holds no line feed and
    is followed by one. *)
Lemma lines_piece (h line : jsstring) :
  closed h -> In line (lines h) ->
  ~ In LF line /\
  exists before after, h = before ++ line ++ LF :: after /\ closed before.
Proof.
  intros Hh Hin. unfold lines in Hin. apply filter_In in Hin as [Hin Hne].
  assert (Hpiece : ~ In LF line /\
            exists b a, h = b ++ line ++ a /\ closed b /\ (a = [] \/ exists a', a = LF :: a')).
  { destruct (split h LF) as [|p0 ps] eqn:Es; [destruct Hin|].
    destruct Hin as [<- | Hin].
    - destruct (split_head LF h p0 ps Es) as [Hp [a [-> Ha]]].
      split; [assumption|]. exists [], a. split; [reflexivity|]. split; [now left | assumption].
    - destruct (split_tail_piece LF h p0 line ps Es Hin) as [Hp [b [a [-> Ha]]]].
      split; [assumption|]. exists (b ++ [LF]), a.
      split; [reflexivity|]. split; [right; now exists b | assumption]. }
  destruct Hpiece as [Hno [b [a [E [Hb Ha]]]]]. split; [assumption|].
  destruct Ha as [-> | [a' ->]]; [|now exists b, a'].
  exfalso. rewrite app_nil_r in E.
  destruct line as [|c line]; [discriminate Hne|].
  destruct (exists_last (l := c :: line)) as [l' [z El]]; [discriminate|].
  destruct Hh as [-> | [h' ->]].
  - destruct b; discriminate.
  - rewrite El, app_assoc in E. apply app_inj_tail in E as [_ <-].
    apply Hno. rewrite El. apply in_or_app. right. now left.
Qed.

Lemma split_concat (s : jsstring) :
  List.concat (map (fun piece => piece ++ [LF]) (split s LF)) = s ++ [LF].
Proof.
  induction s as [|a s IH]; [reflexivity|]. cbn [split].
  destruct (a =? LF) eqn:E.
  - apply Z.eqb_eq in E. subst a. cbn [map List.concat app]. now rewrite IH.
  - pose proof (split_nonempty s LF) as Hne.
    destruct (split s LF) as [|piece pieces]; [contradiction|].
    cbn [map List.concat] in *. rewrite <- !app_comm_cons. now rewrite IH.
Qed.

Lemma split_pieces (s : jsstring) : Forall (fun piece => ~ In LF piece) (split s LF).
Proof.
  induction s as [|a s IH]; [repeat constructor; tauto|]. cbn [split].
  destruct (Z.eqb_spec a LF) as [->|Hne].
  - constructor; [tauto | exact IH].
  - destruct (split s LF) as [|piece pieces]; [repeat constructor; simpl; intuition congruence|].
    inversion IH as [|? ? Hp Hps]; subst. constructor; [|exact Hps].
    simpl. intuition congruence.
Qed.

(** Text that is empty or ends with a line feed is a sequence of pieces
    without a line feed, each followed by one; its lines are the pieces that
    are not empty. *)
Lemma closed_pieces (h : jsstring) :
  closed h ->
  exists pieces,
    h = List.concat (map (fun piece => piece ++ [LF]) pieces)
    /\ Forall (fun piece => ~ In LF piece) pieces
    /\ lines h = filter nonempty pieces.
Proof.
  intros [-> | [h' ->]].
  - exists []. repeat split; constructor.
  - exists (split h' LF). split; [symmetry; apply split_concat|].
    split; [apply split_pieces|].
    change (h' ++ [LF]) with (h' ++ LF :: []). rewrite lines_sep_app.
    change (lines []) with (@nil jsstring). now rewrite app_nil_r.
Qed.

End TextFacts.

(** ** Values and exceptions *)

Module JsFacts.
Import Text Js TextFacts.

Lemma strict_equals_string_true (v : value) (s : jsstring) :
  strict_equals_string v s = true <-> v = JStr s.
Proof.
  destruct v; simpl; try (split; [discriminate | congruence]).
  rewrite eqb_eq. split; congruence.
Qed.

Section WithRuntime.
Context {rt : Runtime}.

(** [throw new Error(v)] always throws; the error of a string is the error
    with that message. *)
Lemma throw_new_Error_throws {A} (v : value) :
  exists e, @throw_new_Error rt A v = Throw e /\ (forall s, v = JStr s -> e = Error s).
Proof.
  destruct (ToString v) as [t | e] eqn:Et.
  - exists (match v with undefined => Error [] | _ => Error t end). split.
    + destruct v; unfold throw_new_Error; try rewrite Et; reflexivity.
    + intros s ->. cbn in Et. now injection Et as <-.
  - exists (match v with undefined => Error [] | _ => e end). split.
    + destruct v; unfold throw_new_Error; try rewrite Et; reflexivity.
    + intros s ->. discriminate Et.
Qed.

End WithRuntime.

End JsFacts.

(** ** The frame pattern *)

Module RegexFacts.
Import Text Regex TextFacts.

Lemma match_here_star (p : pattern) (s : jsstring) (st : mstate) :
  match_here (DotStar :: p) s st =
  match s with
  | a :: s' =>
      if is_line_terminator a then match_here p s st
      else match match_here (DotStar :: p) s' (consume a st) with
           | Some r => Some r
           | None => match_here p s st
           end
  | [] => match_here p s st
  end.
Proof. destruct s; reflexivity. Qed.

(** The end of the pattern, [\})$], inside the open group. *)
Lemma match_here_close (s acc : jsstring) (st : mstate) :
  open_group st = Some acc ->
  match_here [Lit 125; GroupClose; Dollar] s st =
  match s with
  | [c] => if c =? 125 then Some (Some (rev (c :: acc))) else None
  | _ => None
  end.
Proof.
  intros Ho. destruct s as [|c [|d s]]; cbn [match_here]; try reflexivity.
  - destruct (c =? 125); [|reflexivity]. cbn. now rewrite Ho.
  - destruct (c =? 125); reflexivity.
Qed.

Lemma line_terminator_not_brace (c : code_unit) :
  is_line_terminator c = true -> (c =? 125) = false.
Proof.
  unfold is_line_terminator, LF, CR, LS, PS. intros H.
  repeat (apply orb_true_iff in H as [H | H]); apply Z.eqb_eq in H; subst; reflexivity.
Qed.

(** [.*\})$] inside the open group: the greedy star and its backtracking
    accept exactly the texts of [closes_frame], and the group captures what
    was consumed since it opened. *)
Lemma match_here_body (s acc : jsstring) (st : mstate) :
  open_group st = Some acc ->
  match_here [DotStar; Lit 125; GroupClose; Dollar] s st =
  if closes_frame s then Some (Some (rev acc ++ s)) else None.
Proof.
  revert acc st; induction s as [|a s IH]; intros acc st Ho.
  - rewrite match_here_star, (match_here_close [] acc) by assumption. reflexivity.
  - rewrite match_here_star, (match_here_close (a :: s) acc) by assumption.
    destruct (is_line_terminator a) eqn:Ht.
    + pose proof (line_terminator_not_brace a Ht) as Hb.
      cbn [closes_frame]. rewrite Ht. destruct s; [now rewrite Hb | reflexivity].
    + rewrite (IH (a :: acc) (consume a st)) by (unfold consume; simpl; now rewrite Ho).
      cbn [closes_frame]. rewrite Ht. cbn [negb andb].
      destruct s as [|d s].
      * cbn [closes_frame]. destruct (a =? 125); [|reflexivity].
        simpl. reflexivity.
      * destruct (closes_frame (d :: s)); [|reflexivity].
        simpl. now rewrite <- app_assoc.
Qed.

Lemma first_match_from_anchored (p : pattern) (s : jsstring) :
  first_match_from (Caret :: p) s false = None.
Proof. induction s as [|a s IH]; simpl; auto. Qed.

(** The search over start positions finds an anchored pattern at the start
    of the line or nowhere. *)
Lemma first_group_anchored (p : pattern) (s : jsstring) :
  first_group (Caret :: p) s =
  match match_here p s {| at_start := true; open_group := None; capture := None |} with
  | Some r => r
  | None => None
  end.
Proof.
  unfold first_group. destruct s as [|a s]; cbn [first_match_from match_here at_start].
  - destruct (match_here p [] _); reflexivity.
  - destruct (match_here p (a :: s) _); [reflexivity|].
    now rewrite first_match_from_anchored.
Qed.

Lemma closes_frame_spec (s : jsstring) :
  closes_frame s = true <->
  exists mid, s = mid ++ [125]
              /\ forallb (fun c => negb (is_line_terminator c)) mid = true.
Proof.
  induction s as [|c s IH]; cbn [closes_frame].
  - split; [discriminate|]. intros [mid [E _]]. destruct mid; discriminate.
  - destruct s as [|d s].
    + rewrite Z.eqb_eq. split.
      * intros ->. now exists [].
      * intros [mid [E _]]. destruct mid as [|x [|y mid]]; simpl in E; congruence.
    + rewrite andb_true_iff, IH. split.
      * intros [Hc [mid [E Hmid]]]. exists (c :: mid). simpl. rewrite E, Hc. auto.
      * intros [mid [E Hmid]]. destruct mid as [|x mid]; [discriminate|].
        simpl in E. injection E as <- E. simpl in Hmid.
        apply andb_true_iff in Hmid as [Hx Hmid]. split; [assumption|]. now exists mid.
Qed.

(** A run of literal characters consumes exactly that prefix. *)
Lemma match_here_lits (l : jsstring) (p : pattern) (s : jsstring) (st : mstate) :
  match_here (map Lit l ++ p) s st =
  match starts_with l s with
  | Some rest => match_here p rest (consume_all l st)
  | None => None
  end.
Proof.
  revert s st; induction l as [|c l IH]; intros s st; [reflexivity|].
  cbn [map app match_here starts_with]. destruct s as [|a s]; [reflexivity|].
  rewrite (Z.eqb_sym c a). destruct (Z.eqb_spec a c) as [-> | Hac]; [|reflexivity].
  apply IH.
Qed.

Lemma frame_body_spec (s m : jsstring) :
  (if closes_frame s then Some (js "{" ++ s) else None) = Some m <->
  exists mid, s = mid ++ js "}" /\ m = js "{" ++ mid ++ js "}"
              /\ forallb (fun c => negb (is_line_terminator c)) mid = true.
Proof.
  change (js "}") with [125].
  destruct (closes_frame s) eqn:Hc.
  - apply closes_frame_spec in Hc as [mid [-> Hmid]]. split.
    + intros E. injection E as <-. now exists mid.
    + intros [mid' [E [-> _]]]. apply app_inj_tail in E as [-> _]. reflexivity.
  - split; [discriminate|]. intros [mid [-> [_ Hmid]]].
    assert (closes_frame (mid ++ [125]) = true) by (apply closes_frame_spec; eauto).
    congruence.
Qed.

(** X3: the lines [/^data: (\{.*\})$/] matches and what it captures: the line is
    [data: {], then units that are no line terminators, then a closing brace
    that ends the line; the capture is the line without [data: ]. *)
Theorem data_frame_spec (wholeLine m : jsstring) :
  first_group data_frame wholeLine = Some m <->
  exists mid,
    wholeLine = js "data: {" ++ mid ++ js "}"
    /\ m = js "{" ++ mid ++ js "}"
    /\ forallb (fun c => negb (is_line_terminator c)) mid = true.
Proof.
  change data_frame with
    (Caret :: map Lit (js "data: ")
           ++ GroupOpen :: map Lit (js "{") ++ [DotStar; Lit 125; GroupClose; Dollar]).
  change (js "data: {") with (js "data: " ++ js "{").
  rewrite first_group_anchored, match_here_lits.
  destruct (starts_with (js "data: ") wholeLine) as [rest|] eqn:E1.
  - apply starts_with_spec in E1. subst wholeLine.
    cbn [match_here]. rewrite match_here_lits.
    destruct (starts_with (js "{") rest) as [body|] eqn:E2.
    + apply starts_with_spec in E2. subst rest.
      rewrite (match_here_body body [123]) by reflexivity.
      apply (iff_trans
               (B := exists mid, body = mid ++ js "}" /\ m = js "{" ++ mid ++ js "}"
                       /\ forallb (fun c => negb (is_line_terminator c)) mid = true)).
      { pose proof (frame_body_spec body m) as Hspec.
        destruct (closes_frame body); exact Hspec. }
      split.
      * intros [mid [-> [-> Hmid]]]. exists mid. now rewrite <- !app_assoc.
      * intros [mid [E [-> Hmid]]]. exists mid.
        rewrite <- !app_assoc in E. apply app_inv_head in E. apply app_inv_head in E.
        now subst body.
    + split; [discriminate|]. intros [mid [E _]]. exfalso.
      rewrite <- !app_assoc in E. apply app_inv_head in E.
      apply starts_with_spec in E. congruence.
  - split; [discriminate|]. intros [mid [E _]]. exfalso.
    rewrite <- !app_assoc in E. apply starts_with_spec in E. congruence.
Qed.

End RegexFacts.

(** ** [TextDecoder]: ASCII input *)

Module Utf8Facts.
Import Utf8.

Lemma run_ascii (zs : list Z) :
  Forall (fun z => 0 <= z < 128) zs -> run fresh zs = zs.
Proof.
  induction 1 as [|z zs Hz _ IH]; [reflexivity|].
  cbn [run]. unfold handler. cbn [bytes_needed fresh Z.eqb]. unfold lead, within.
  destruct (Z.leb_spec 0 z); [|lia]. destruct (Z.leb_spec z 127); [|lia].
  cbn [andb app]. fold fresh. now rewrite IH.
Qed.

Lemma strip_bom_ascii (zs : list Z) :
  Forall (fun z => 0 <= z < 128) zs -> strip_bom zs = zs.
Proof.
  intros H. destruct H as [|z zs Hz _]; [reflexivity|].
  unfold strip_bom, BOM. destruct (Z.eqb_spec z 65279); [lia | reflexivity].
Qed.

Lemma utf16_ascii (zs : list Z) :
  Forall (fun z => 0 <= z < 128) zs -> flat_map utf16 zs = zs.
Proof.
  induction 1 as [|z zs Hz _ IH]; [reflexivity|].
  cbn [flat_map]. rewrite IH. unfold utf16.
  destruct (Z.ltb_spec z 65536); [reflexivity | lia].
Qed.

Lemma byte_values_ascii (bs : list byte) :
  forallb is_ascii bs = true -> Forall (fun z => 0 <= z < 128) (map byte_value bs).
Proof.
  induction bs as [|b bs IH]; simpl; [constructor|].
  intros H. apply andb_true_iff in H as [Hb Hbs]. constructor; [|auto].
  unfold is_ascii in Hb. apply Z.ltb_lt in Hb. unfold byte_value in *. lia.
Qed.

(** ASCII bytes decode to themselves, one unit each. *)
Lemma decode_ascii (bs : list byte) :
  forallb is_ascii bs = true -> decode bs = map byte_value bs.
Proof.
  intros H. apply byte_values_ascii in H. unfold decode.
  now rewrite run_ascii, strip_bom_ascii, utf16_ascii.
Qed.

Lemma forallb_concat {A} (f : A -> bool) (ls : list (list A)) :
  forallb f (List.concat ls) = true -> Forall (fun l => forallb f l = true) ls.
Proof.
  induction ls as [|l ls IH]; simpl; [constructor|].
  rewrite forallb_app. intros H. apply andb_true_iff in H as [Hl Hls]. auto.
Qed.

(** On ASCII input, decoding chunk by chunk is decoding the whole. *)
Lemma decode_chunks_ascii (reads : list (list byte)) :
  forallb is_ascii (List.concat reads) = true ->
  List.concat (map decode reads) = map byte_value (List.concat reads).
Proof.
  intros H. apply forallb_concat in H.
  induction H as [|l ls Hl _ IH]; [reflexivity|].
  simpl. now rewrite map_app, IH, decode_ascii.
Qed.

End Utf8Facts.

(** ** The read loop of [getChatStream] *)

Module LoopFacts.
Import Text Js Chat TextFacts.

Lemma wholeLines_cut (w : jsstring) : wholeLines w = lines (fst (cut LF w)).
Proof. unfold wholeLines. now rewrite slice_whole. Qed.

Lemma next_unfinishedLine_cut (w : jsstring) : next_unfinishedLine w = snd (cut LF w).
Proof. apply slice_rest. Qed.

Lemma next_unfinishedLine_no_LF (w : jsstring) : ~ In LF (next_unfinishedLine w).
Proof. rewrite next_unfinishedLine_cut. apply cut_rest_no_sep. Qed.

Lemma wholeLines_closed_app (h y : jsstring) :
  closed h -> wholeLines (h ++ y) = lines h ++ wholeLines y.
Proof.
  intros Hh. rewrite !wholeLines_cut, cut_closed_app by assumption. simpl.
  apply lines_closed_app, Hh.
Qed.

Lemma next_unfinishedLine_closed_app (h y : jsstring) :
  closed h -> next_unfinishedLine (h ++ y) = next_unfinishedLine y.
Proof.
  intros Hh. now rewrite !next_unfinishedLine_cut, cut_closed_app by assumption.
Qed.

Lemma wholeLines_no_LF (u : jsstring) : ~ In LF u -> wholeLines u = [].
Proof. intros H. rewrite wholeLines_cut, cut_no_sep by assumption. reflexivity. Qed.

Lemma next_unfinishedLine_id (u : jsstring) : ~ In LF u -> next_unfinishedLine u = u.
Proof. intros H. now rewrite next_unfinishedLine_cut, cut_no_sep by assumption. Qed.

(** A window is its whole lines followed by the new buffer. *)
Lemma window_parts (w : jsstring) :
  slice w 0 (Some (lastIndexOf w LF + 1)) ++ next_unfinishedLine w = w.
Proof. rewrite slice_whole, next_unfinishedLine_cut. apply cut_app. Qed.

Lemma matches_app (a b : list jsstring) : matches (a ++ b) = matches a ++ matches b.
Proof. unfold matches. now rewrite map_app, filter_app. Qed.

(** Taking [w] first and the rest with the buffer [w] leaves is taking
    the whole text at once. *)
Lemma wholeLines_window_app (w d : jsstring) :
  wholeLines (w ++ d) = wholeLines w ++ wholeLines (next_unfinishedLine w ++ d).
Proof.
  rewrite (wholeLines_cut w), next_unfinishedLine_cut.
  pose proof (cut_app LF w) as E. pose proof (closed_cut w) as Hc.
  destruct (cut LF w) as [h t]; simpl in *. subst w.
  rewrite <- app_assoc. now apply wholeLines_closed_app.
Qed.

Lemma next_unfinishedLine_window_app (w d : jsstring) :
  next_unfinishedLine (w ++ d) = next_unfinishedLine (next_unfinishedLine w ++ d).
Proof.
  rewrite (next_unfinishedLine_cut w).
  pose proof (cut_app LF w) as E. pose proof (closed_cut w) as Hc.
  destruct (cut LF w) as [h t]; simpl in *. subst w.
  rewrite <- app_assoc. now apply next_unfinishedLine_closed_app.
Qed.

(** The lines taken over several iterations are the lines of the text
    received, whatever the chunk boundaries. *)
Lemma wholeLines_of_window (reads : list (list byte)) (u : jsstring) :
  ~ In LF u -> wholeLines_of reads u = wholeLines (u ++ decoded reads).
Proof.
  revert u; induction reads as [|value later IH]; intros u Hu.
  - unfold decoded; simpl. rewrite app_nil_r. symmetry. now apply wholeLines_no_LF.
  - cbn [wholeLines_of]. rewrite IH by apply next_unfinishedLine_no_LF.
    unfold decoded; cbn [map List.concat]. fold (decoded later).
    unfold currentWindow. rewrite (app_assoc u).
    symmetry. apply wholeLines_window_app.
Qed.

Lemma unfinishedLine_from (reads : list (list byte)) (u : jsstring) :
  ~ In LF u ->
  fold_left (fun unfinishedLine value =>
               next_unfinishedLine (currentWindow unfinishedLine (Utf8.decode value)))
            reads u
  = next_unfinishedLine (u ++ decoded reads).
Proof.
  revert u; induction reads as [|value later IH]; intros u Hu.
  - unfold decoded; simpl. rewrite app_nil_r. symmetry. now apply next_unfinishedLine_id.
  - cbn [fold_left]. rewrite IH by apply next_unfinishedLine_no_LF.
    unfold decoded; cbn [map List.concat]. fold (decoded later).
    unfold currentWindow. rewrite (app_assoc u).
    symmetry. apply next_unfinishedLine_window_app.
Qed.

Section WithRuntime.
Context {rt : Runtime}.

Lemma andThen_returns_nil (k : run) : andThen (returns []) k = k.
Proof. now destruct k. Qed.

Lemma andThen_nil_r (r : run) : andThen r (returns []) = r.
Proof.
  destruct r as [ys [e|]]; unfold andThen; simpl; auto.
  now rewrite app_nil_r.
Qed.

Lemma andThen_assoc (a b c : run) : andThen (andThen a b) c = andThen a (andThen b c).
Proof.
  destruct a as [ya [ea|]], b as [yb [eb|]], c as [yc ec]; unfold andThen; simpl; auto.
  now rewrite app_assoc.
Qed.

Lemma andThen_returns (items : list value) (k : run) :
  andThen (returns items) k = {| yielded := items ++ yielded k; thrown := thrown k |}.
Proof. reflexivity. Qed.

Lemma andThen_throws (items : list value) (e : exn) (k : run) :
  andThen (throws items e) k = throws items e.
Proof. reflexivity. Qed.

Lemma for_matches_app (a b : list (option jsstring)) :
  for_matches (a ++ b) = andThen (for_matches a) (for_matches b).
Proof.
  induction a as [|m a IH]; simpl.
  - now rewrite andThen_returns_nil.
  - destruct (parse_item m) as [item | e]; [|reflexivity].
    now rewrite IH, andThen_assoc.
Qed.

Lemma read_loop_wholeLines_of (reads : list (list byte)) (u : jsstring) :
  read_loop reads u = for_matches (matches (wholeLines_of reads u)).
Proof.
  revert u; induction reads as [|value later IH]; intros u; [reflexivity|].
  cbn [read_loop wholeLines_of]. now rewrite matches_app, for_matches_app, IH.
Qed.

(** What the generator does is a function of the text received: the frames
    among its whole lines, handled in order. *)
Lemma read_loop_decoded (reads : list (list byte)) :
  read_loop reads [] = for_matches (matches (wholeLines (decoded reads))).
Proof.
  rewrite read_loop_wholeLines_of, wholeLines_of_window by (simpl; tauto).
  reflexivity.
Qed.

End WithRuntime.

End LoopFacts.

(** ** The stream frame reassembler *)

Module StreamSpec.
Import Text Js Chat Samples TextFacts LoopFacts.

Section WithRuntime.
Context {rt : Runtime}.

(** Once [fetch] has answered with an ok status and a body, the generator
    is the read loop over the chunks of the body, from an empty buffer. *)
Lemma getChatStream_reads (this : ChatClient) (fetch : Request -> result Response)
    (messages : value) (config : option props) (stream : Response)
    (reads : list (list byte)) :
  fetch (getChatStream_request this messages config) = Ok stream ->
  ok stream = true ->
  chunks stream = Some reads ->
  getChatStream this fetch messages config = read_loop reads [].
Proof.
  intros Hfetch Hok Hbody. unfold getChatStream. now rewrite Hfetch, Hok, Hbody.
Qed.

(** The loop can be stopped after any chunk and resumed from the buffer:
    [unfinishedLine_after] is the state it carries. *)
Lemma read_loop_resume (reads more : list (list byte)) (u : jsstring) :
  read_loop (reads ++ more) u =
  andThen (read_loop reads u)
          (read_loop more
             (fold_left (fun unfinishedLine value =>
                           next_unfinishedLine (currentWindow unfinishedLine (Utf8.decode value)))
                        reads u)).
Proof.
  revert u; induction reads as [|value later IH]; intros u.
  - simpl. now rewrite andThen_returns_nil.
  - cbn [app read_loop fold_left]. now rewrite IH, andThen_assoc.
Qed.

(** X19: over the text received, that is the chunks as [decoder.decode]
    renders them one by one: after every chunk the unfinished-line buffer is
    exactly the text after the last line feed; the text received is the
    whole-lines part followed by the buffer, so every unit lies in one of
    the two, once; the whole-lines part is a sequence of pieces without a
    line feed, each followed by one, and the lines handed to the pattern are
    the pieces that are not empty, in order; each is a whole line of the text
    received (it starts the text or follows a line feed, and a line feed
    follows it), and the events come from these lines alone. For ASCII
    input the text received is the bytes themselves. *)
Theorem unfinishedLine_invariant (reads : list (list byte)) :
  let received := decoded reads in
  let whole := slice received 0 (Some (lastIndexOf received LF + 1)) in
  unfinishedLine_after reads = slice received (lastIndexOf received LF + 1) None
  /\ ~ In LF (unfinishedLine_after reads)
  /\ whole ++ unfinishedLine_after reads = received
  /\ closed whole
  /\ wholeLines_of reads [] = lines whole
  /\ (exists pieces,
        whole = List.concat (map (fun piece => piece ++ [LF]) pieces)
        /\ Forall (fun piece => ~ In LF piece) pieces
        /\ wholeLines_of reads [] = filter (fun piece => negb (Text.eqb piece [])) pieces)
  /\ (forall line, In line (wholeLines_of reads []) ->
        ~ In LF line /\
        exists before after, received = before ++ line ++ LF :: after /\ closed before)
  /\ read_loop reads [] = for_matches (matches (wholeLines_of reads []))
  /\ (forall more, read_loop (reads ++ more) [] =
                   andThen (read_loop reads []) (read_loop more (unfinishedLine_after reads)))
  /\ (forallb Utf8.is_ascii (List.concat reads) = true ->
        received = map Utf8.byte_value (List.concat reads)).
Proof.
  intros received whole.
  assert (Hbuf : unfinishedLine_after reads = next_unfinishedLine received).
  { unfold unfinishedLine_after. rewrite unfinishedLine_from by (simpl; tauto). reflexivity. }
  assert (Hlines : wholeLines_of reads [] = lines whole).
  { rewrite wholeLines_of_window by (simpl; tauto). reflexivity. }
  assert (Hclosed : closed whole).
  { unfold whole. rewrite slice_whole. apply closed_cut. }
  assert (Hparts : whole ++ unfinishedLine_after reads = received).
  { rewrite Hbuf. apply window_parts. }
  split; [exact Hbuf|].
  split; [rewrite Hbuf; apply next_unfinishedLine_no_LF|].
  split; [exact Hparts|].
  split; [exact Hclosed|].
  split; [exact Hlines|].
  split.
  { destruct (closed_pieces whole Hclosed) as [pieces [Hw [Hp Hl]]].
    exists pieces. split; [exact Hw|]. split; [exact Hp|]. now rewrite Hlines. }
  split.
  { intros line Hin. rewrite Hlines in Hin.
    destruct (lines_piece whole line Hclosed Hin) as [Hno [before [after [E Hb]]]].
    split; [exact Hno|].
    exists before, (after ++ unfinishedLine_after reads). split; [|exact Hb].
    rewrite <- Hparts, E. rewrite <- !app_assoc. reflexivity. }
  split; [apply read_loop_wholeLines_of|].
  split; [intros more; apply read_loop_resume|].
  apply Utf8Facts.decode_chunks_ascii.
Qed.

(** X1: the run depends on the text received only: chunk sequences that
    decode to the same text yield the same events and end the same way. *)
Lemma read_loop_same_text (reads reads' : list (list byte)) :
  decoded reads = decoded reads' -> read_loop reads [] = read_loop reads' [].
Proof. intros E. now rewrite !read_loop_decoded, E. Qed.

(** X2: a stream of bytes below 0x80 can be cut into chunks anywhere (inside
    a frame, inside a line, byte by byte): the generator runs as on the whole
    stream in one chunk. *)
Theorem ascii_stream_any_partition (reads : list (list byte)) (stream : list byte) :
  List.concat reads = stream ->
  forallb Utf8.is_ascii stream = true ->
  read_loop reads [] = read_loop [stream] [].
Proof.
  intros <- Hascii. rewrite !read_loop_decoded. do 3 f_equal.
  unfold decoded at 1. rewrite Utf8Facts.decode_chunks_ascii by assumption.
  unfold decoded. simpl. now rewrite app_nil_r, Utf8Facts.decode_ascii.
Qed.

Lemma for_matches_all_valid (ms : list (option jsstring)) (items : list value) :
  Forall2 (fun m item => parse_item m = Ok item) ms items ->
  for_matches ms = returns items.
Proof.
  induction 1 as [|m item ms items Hm _ IH]; [reflexivity|].
  cbn [for_matches]. now rewrite Hm, IH.
Qed.

(** X4: when every frame of the text received parses to a valid item, the
    generator yields exactly these items, one per frame and in the order of
    the frames, and returns. *)
Theorem valid_frames_are_yielded_in_order (reads : list (list byte)) (items : list value) :
  Forall2 (fun m item => parse_item m = Ok item) (frames reads) items ->
  read_loop reads [] = returns items
  /\ List.length items = List.length (frames reads).
Proof.
  intros H. split.
  - rewrite read_loop_decoded. now apply for_matches_all_valid.
  - symmetry. eapply Forall2_length, H.
Qed.

Lemma matches_non_frame (line : jsstring) :
  ~ In LF line -> Regex.first_group Regex.data_frame line = None -> matches (lines line) = [].
Proof.
  intros Hout Hno. unfold lines. rewrite split_no_sep by assumption. simpl.
  destruct (nonempty line); [|reflexivity].
  unfold matches. simpl. now rewrite Hno.
Qed.

Lemma wholeLines_line (before line after : jsstring) :
  closed before -> ~ In LF line ->
  wholeLines (before ++ line ++ LF :: after) = lines before ++ lines line ++ wholeLines after.
Proof.
  intros Hb Hl. rewrite wholeLines_closed_app by assumption. f_equal.
  replace (line ++ LF :: after) with ((line ++ [LF]) ++ after)
    by (now rewrite <- app_assoc).
  rewrite wholeLines_closed_app by (right; now exists line).
  f_equal. rewrite lines_sep_app. unfold lines at 2. simpl. apply app_nil_r.
Qed.

(** C6: a whole line that does not match [/^data: (\{.*\})$/] is discarded.
    A stream that holds such a line (between two line boundaries) runs
    exactly as the stream without it: the same events in the same order and
    the same completion, so the line yields nothing, raises nothing, and the
    lines after it are processed as before. *)
Theorem non_frame_line_is_skipped (reads reads' : list (list byte))
    (before line after : jsstring) :
  decoded reads = before ++ line ++ LF :: after ->
  decoded reads' = before ++ after ->
  closed before ->
  ~ In LF line ->
  Regex.first_group Regex.data_frame line = None ->
  read_loop reads [] = read_loop reads' [].
Proof.
  intros E E' Hb Hl Hno.
  rewrite !read_loop_decoded, E, E'.
  rewrite wholeLines_line, wholeLines_closed_app by assumption.
  rewrite !matches_app, (matches_non_frame line) by assumption. reflexivity.
Qed.

(** C8: when the stream ends with text after its last line feed, that text
    is still in the buffer when the reader reports [done], and the generator
    has run exactly as on the stream cut at the last line feed: the residue
    is neither parsed nor yielded. *)
Theorem unterminated_residue_is_dropped (reads reads' : list (list byte))
    (whole residue : jsstring) :
  decoded reads = whole ++ residue ->
  decoded reads' = whole ->
  closed whole ->
  ~ In LF residue ->
  read_loop reads [] = read_loop reads' []
  /\ unfinishedLine_after reads = residue
  /\ read_loop reads [] = for_matches (matches (lines whole)).
Proof.
  intros E E' Hw Hr.
  assert (Hrun : read_loop reads [] = for_matches (matches (lines whole))).
  { rewrite read_loop_decoded, E, wholeLines_closed_app by assumption.
    now rewrite wholeLines_no_LF, app_nil_r by assumption. }
  repeat split.
  - rewrite Hrun, read_loop_decoded, E'.
    rewrite <- (app_nil_r whole) at 2.
    rewrite wholeLines_closed_app by assumption.
    now rewrite app_nil_r.
  - unfold unfinishedLine_after. rewrite unfinishedLine_from by (simpl; tauto).
    simpl. rewrite E, next_unfinishedLine_closed_app by assumption.
    now apply next_unfinishedLine_id.
  - exact Hrun.
Qed.

(** C3 (as amended): a frame whose [error.message] is truthy ends the
    stream. The events of the frames before it have been yielded, nothing is
    yielded after them, and the generator throws; when the message is a
    string the error thrown is [new Error(message)]. *)
Theorem error_frame_aborts (reads : list (list byte))
    (earlier later : list (option jsstring)) (m : jsstring)
    (items : list value) (item : value) :
  frames reads = earlier ++ Some m :: later ->
  for_matches earlier = returns items ->
  JSON_parse m = Ok item ->
  Boolean (OptGet (OptGet item (js "error")) (js "message")) = true ->
  exists e,
    read_loop reads [] = throws items e
    /\ (forall s, OptGet (OptGet item (js "error")) (js "message") = JStr s -> e = Error s).
Proof.
  intros Hf He Hp Hm.
  destruct (JsFacts.throw_new_Error_throws (A := value)
              (OptGet (OptGet item (js "error")) (js "message")))
    as [e [Ht Hs]].
  exists e. split; [|exact Hs].
  rewrite read_loop_decoded. fold (frames reads). rewrite Hf, for_matches_app, He.
  cbn [for_matches]. unfold parse_item. rewrite Hp. cbn [bind]. rewrite Hm, Ht.
  unfold andThen, returns, throws. simpl. now rewrite app_nil_r.
Qed.

(** C4 (as amended): a frame without a truthy [error.message] is yielded
    when its [choices] is an array, and the loop goes on with the frames
    after it; otherwise the generator throws [new Error("Invalid response")]
    at once, after the events of the frames before. *)
Theorem choices_check (reads : list (list byte))
    (earlier later : list (option jsstring)) (m : jsstring)
    (items : list value) (item : value) :
  frames reads = earlier ++ Some m :: later ->
  for_matches earlier = returns items ->
  JSON_parse m = Ok item ->
  Boolean (OptGet (OptGet item (js "error")) (js "message")) = false ->
  read_loop reads [] =
    if isArray (OptGet item (js "choices"))
    then andThen (returns (items ++ [item])) (for_matches later)
    else throws items (Error (js "Invalid response")).
Proof.
  intros Hf He Hp Hm.
  rewrite read_loop_decoded. fold (frames reads). rewrite Hf, for_matches_app, He.
  cbn [for_matches]. unfold parse_item. rewrite Hp. cbn [bind]. rewrite Hm.
  destruct (isArray (OptGet item (js "choices"))); simpl.
  - rewrite <- andThen_assoc. reflexivity.
  - unfold andThen, returns, throws. simpl. now rewrite app_nil_r.
Qed.

End WithRuntime.

(** *** Concrete streams, run on the reference runtime *)

(** The call as a whole on the example stream. *)
Lemma getChatStream_example :
  getChatStream (rt := Json.reference) client (answers hi_stream) (user_says "hi") None
  = returns [hi_item].
Proof. vm_compute. reflexivity. Qed.

(** Two ways to cut a stream with a two-byte character, both between
    characters. *)
Lemma read_loop_same_text_witness :
  let head := Utf8.bytes "data: {'choices':[{'delta':{'content':'" in
  let tail := Utf8.bytes "'}}]}" ++ [x0a] in
  read_loop (rt := Json.reference) [head ++ [xc3; xa9]; tail] []
  = read_loop (rt := Json.reference) [head; [xc3; xa9] ++ tail] [].
Proof.
  intros head tail.
  apply (read_loop_same_text (rt := Json.reference)). vm_compute. reflexivity.
Defined.

(** The example stream delivered one byte at a time. *)
Lemma ascii_stream_any_partition_witness :
  read_loop (rt := Json.reference) (map (fun b => [b]) hi_stream) []
  = read_loop (rt := Json.reference) [hi_stream] [].
Proof.
  apply (ascii_stream_any_partition (rt := Json.reference)).
  - vm_compute. reflexivity.
  - vm_compute. reflexivity.
Defined.

(** The example stream yields its one event, whose first choice's delta has
    the content "hi". *)
Lemma valid_frames_are_yielded_in_order_witness :
  read_loop (rt := Json.reference) [hi_stream] [] = returns [hi_item]
  /\ List.length [hi_item] = List.length (frames [hi_stream]).
Proof.
  apply (valid_frames_are_yielded_in_order (rt := Json.reference)).
  replace (frames [hi_stream]) with [Some (js hi_frame)] by (vm_compute; reflexivity).
  constructor; [vm_compute; reflexivity | constructor].
Defined.

(** A stream with a comment line and a blank line between two frames runs as
    the stream without the comment line. *)
Lemma non_frame_line_is_skipped_witness :
  read_loop (rt := Json.reference)
    [Utf8.bytes "data: {'choices':[]}" ++ [x0a] ++ Utf8.bytes ": keep-alive" ++ [x0a; x0a]
     ++ Utf8.bytes "data: {'choices':[1]}" ++ [x0a]] []
  = read_loop (rt := Json.reference)
    [Utf8.bytes "data: {'choices':[]}" ++ [x0a] ++ [x0a]
     ++ Utf8.bytes "data: {'choices':[1]}" ++ [x0a]] [].
Proof.
  apply (non_frame_line_is_skipped (rt := Json.reference) _ _
           (js "data: {'choices':[]}" ++ [LF])
           (js ": keep-alive")
           ([LF] ++ js "data: {'choices':[1]}" ++ [LF])).
  - vm_compute. reflexivity.
  - vm_compute. reflexivity.
  - right. exists (js "data: {'choices':[]}"). reflexivity.
  - vm_compute. intuition discriminate.
  - vm_compute. reflexivity.
Defined.

(** A last frame that no line feed follows stays in the buffer. *)
Lemma unterminated_residue_is_dropped_witness :
  read_loop (rt := Json.reference)
    [Utf8.bytes "data: {'choices':[]}" ++ [x0a] ++ Utf8.bytes "data: {'choices':[1]}"] []
  = returns [choices_frame []]
  /\ unfinishedLine_after
       [Utf8.bytes "data: {'choices':[]}" ++ [x0a] ++ Utf8.bytes "data: {'choices':[1]}"]
     = js "data: {'choices':[1]}".
Proof.
  destruct (unterminated_residue_is_dropped (rt := Json.reference)
              [Utf8.bytes "data: {'choices':[]}" ++ [x0a] ++ Utf8.bytes "data: {'choices':[1]}"]
              [Utf8.bytes "data: {'choices':[]}" ++ [x0a]]
              (js "data: {'choices':[]}" ++ [LF])
              (js "data: {'choices':[1]}")) as [Hrun [Hbuf _]].
  - vm_compute. reflexivity.
  - vm_compute. reflexivity.
  - right. exists (js "data: {'choices':[]}"). reflexivity.
  - vm_compute. intuition discriminate.
  - split; [|exact Hbuf]. rewrite Hrun. vm_compute. reflexivity.
Defined.

(** The stream of the specification's example: one event, then the error. *)
Lemma error_frame_aborts_witness :
  read_loop (rt := Json.reference)
    [Utf8.bytes "data: {'choices':[]}" ++ [x0a]
     ++ Utf8.bytes "data: {'error':{'message':'boom'}}" ++ [x0a]
     ++ Utf8.bytes "data: {'choices':[1]}" ++ [x0a]] []
  = throws [choices_frame []] (Error (js "boom")).
Proof.
  destruct (error_frame_aborts (rt := Json.reference)
              [Utf8.bytes "data: {'choices':[]}" ++ [x0a]
               ++ Utf8.bytes "data: {'error':{'message':'boom'}}" ++ [x0a]
               ++ Utf8.bytes "data: {'choices':[1]}" ++ [x0a]]
              [Some (js "{'choices':[]}")] [Some (js "{'choices':[1]}")]
              (js "{'error':{'message':'boom'}}")
              [choices_frame []]
              (JObj [(js "error", JObj [(js "message", JStr (js "boom"))])]))
    as [e [Hrun Hmsg]].
  - vm_compute. reflexivity.
  - vm_compute. reflexivity.
  - vm_compute. reflexivity.
  - vm_compute. reflexivity.
  - rewrite Hrun. f_equal. apply Hmsg. vm_compute. reflexivity.
Defined.

(** C3, as stated, fails for a frame whose [error.message] is the empty
    string: the frame carries the field, and the generator yields the frame
    and returns. *)
Lemma empty_error_message_is_yielded :
  let item := JObj [(js "error", JObj [(js "message", JStr [])]); (js "choices", JArr [])] in
  JSON_parse (Runtime := Json.reference) (js "{'error':{'message':''},'choices':[]}") = Ok item
  /\ OptGet (OptGet item (js "error")) (js "message") = JStr []
  /\ read_loop (rt := Json.reference)
       [Utf8.bytes "data: {'error':{'message':''},'choices':[]}" ++ [x0a]] []
     = returns [item].
Proof. vm_compute. repeat split; reflexivity. Qed.

(** Frames with and without an array under [choices], none carrying an
    error message. *)
Lemma choices_check_witness :
  read_loop (rt := Json.reference)
    [Utf8.bytes "data: {'choices':[1]}" ++ [x0a]
     ++ Utf8.bytes "data: {'choices':null}" ++ [x0a]
     ++ Utf8.bytes "data: {'choices':[]}" ++ [x0a]] []
  = throws [choices_frame [one]] (Error (js "Invalid response")).
Proof.
  rewrite (choices_check (rt := Json.reference) _
             [Some (js "{'choices':[1]}")] [Some (js "{'choices':[]}")]
             (js "{'choices':null}")
             [choices_frame [one]]
             (JObj [(js "choices", null)])).
  - vm_compute. reflexivity.
  - vm_compute. reflexivity.
  - vm_compute. reflexivity.
  - vm_compute. reflexivity.
  - vm_compute. reflexivity.
Defined.

(** C4, as stated, fails for a frame without [choices] that carries an error
    message: the error thrown is the server's, not "Invalid response". *)
Lemma missing_choices_with_error_message :
  let item := JObj [(js "error", JObj [(js "message", JStr (js "boom"))])] in
  JSON_parse (Runtime := Json.reference) (js "{'error':{'message':'boom'}}") = Ok item
  /\ OptGet item (js "choices") = undefined
  /\ isArray (OptGet item (js "choices")) = false
  /\ read_loop (rt := Json.reference)
       [Utf8.bytes "data: {'error':{'message':'boom'}}" ++ [x0a]] []
     = throws [] (Error (js "boom"))
  /\ Text.eqb (js "boom") (js "Invalid response") = false.
Proof. vm_compute. repeat split; reflexivity. Qed.

(** C1 at the failing input: a frame whose content is U+00E9, encoded as the
    two bytes C3 A9. Delivered in one chunk the event carries U+00E9;
    delivered in two chunks that part between C3 and A9, the same bytes give
    an event that carries U+FFFD U+FFFD. *)
Theorem chunk_boundary_inside_a_character :
  let head := Utf8.bytes "data: {'choices':[{'delta':{'content':'" in
  let tail := Utf8.bytes "'}}]}" ++ [x0a] in
  List.concat [head ++ [xc3]; [xa9] ++ tail] = head ++ [xc3; xa9] ++ tail
  /\ read_loop (rt := Json.reference) [head ++ [xc3; xa9] ++ tail] []
     = returns [content_frame [233]]
  /\ read_loop (rt := Json.reference) [head ++ [xc3]; [xa9] ++ tail] []
     = returns [content_frame [65533; 65533]].
Proof. vm_compute. repeat split; reflexivity. Qed.

(** C2 at the failing inputs. The bytes after the last line feed are 61 C3
    A9, the text [a] U+00E9: taken in one chunk the buffer holds that text;
    with a chunk boundary between C3 and A9 it holds [a] U+FFFD U+FFFD, which
    is not what those bytes say. A chunk that starts with the bytes EF BB BF
    (U+FEFF) loses them: they reach neither the buffer nor, once the line
    ends, the whole line, while the same bytes inside a chunk are kept. *)
Theorem chunk_boundary_loses_bytes :
  Utf8.decode [x61; xc3; xa9] = [97; 233]
  /\ unfinishedLine_after [[x0a; x61; xc3; xa9]] = [97; 233]
  /\ unfinishedLine_after [[x0a; x61; xc3]; [xa9]] = [97; 65533; 65533]
  /\ unfinishedLine_after [[x61; xef; xbb; xbf; x62]] = [97; 65279; 98]
  /\ unfinishedLine_after [[x61]; [xef; xbb; xbf; x62]] = [97; 98]
  /\ wholeLines_of [[x61; xef; xbb; xbf; x62; x0a]] [] = [[97; 65279; 98]]
  /\ wholeLines_of [[x61]; [xef; xbb; xbf; x62; x0a]] [] = [[97; 98]].
Proof. vm_compute. repeat split; reflexivity. Qed.

(** A chunk boundary can also change the number of events. U+2028, a line
    terminator for [.], is the bytes E2 80 A8: inside a string of a frame it
    keeps the line from matching the pattern when the line arrives whole, and
    it is replaced when a chunk boundary cuts it, so the line then matches. *)
Lemma chunk_boundary_inside_a_line_separator :
  let head := Utf8.bytes "data: {'choices':[],'note':'" in
  let tail := Utf8.bytes "'}" ++ [x0a] in
  read_loop (rt := Json.reference) [head ++ [xe2; x80; xa8] ++ tail] [] = returns []
  /\ read_loop (rt := Json.reference) [head ++ [xe2; x80]; [xa8] ++ tail] []
     = returns [JObj [(js "choices", JArr []); (js "note", JStr [65533; 65533])]].
Proof. vm_compute. split; reflexivity. Qed.

End StreamSpec.

(** ** Objects: property lookup, assignment and spread *)

Module ClientFacts.
Import Text Js Chat KeyOrder TextFacts.

Lemma lookup_replace_prop (ps : props) (k k' : jsstring) (v : value) :
  lookup (replace_prop ps k v) k' =
  if Text.eqb k k' then match lookup ps k with Some _ => Some v | None => None end
  else lookup ps k'.
Proof.
  induction ps as [|[k0 v0] ps IH]; simpl.
  - now destruct (Text.eqb k k').
  - destruct (Text.eqb k0 k) eqn:E0; simpl.
    + apply eqb_eq in E0. subst k0. destruct (Text.eqb k k'); reflexivity.
    + destruct (Text.eqb k0 k') eqn:E1; [|exact IH].
      apply eqb_eq in E1. subst k0.
      destruct (Text.eqb k k') eqn:E2; [|reflexivity].
      apply eqb_eq in E2. subst k'. now rewrite eqb_refl in E0.
Qed.

Lemma lookup_insert_index (n : N) (ps : props) (k k' : jsstring) (v : value) :
  lookup ps k = None ->
  lookup (insert_index n k v ps) k' = if Text.eqb k k' then Some v else lookup ps k'.
Proof.
  induction ps as [|[k0 v0] ps IH]; simpl; [reflexivity|].
  destruct (Text.eqb k0 k) eqn:E0; [discriminate|]. intros Hk.
  assert (Hhere : lookup ((k, v) :: (k0, v0) :: ps) k'
                  = if Text.eqb k k' then Some v else lookup ((k0, v0) :: ps) k')
    by reflexivity.
  destruct (array_index k0) as [n0|]; [|exact Hhere].
  destruct (n0 <? n)%N; [|exact Hhere].
  simpl. rewrite (IH Hk).
  destruct (Text.eqb k0 k') eqn:E1; [|reflexivity].
  apply eqb_eq in E1. subst k0. now rewrite (proj2 (eqb_neq k k')) by
    (intros ->; now rewrite eqb_refl in E0).
Qed.

Lemma lookup_app (a b : props) (k : jsstring) :
  lookup (a ++ b) k = match lookup a k with Some v => Some v | None => lookup b k end.
Proof.
  induction a as [|[k0 v0] a IH]; simpl; [reflexivity|].
  destruct (Text.eqb k0 k); [reflexivity | exact IH].
Qed.

Lemma lookup_set_prop (ps : props) (k k' : jsstring) (v : value) :
  lookup (set_prop ps k v) k' = if Text.eqb k k' then Some v else lookup ps k'.
Proof.
  unfold set_prop. destruct (lookup ps k) as [old|] eqn:Hk.
  - now rewrite lookup_replace_prop, Hk.
  - destruct (array_index k) as [n|]; [now apply lookup_insert_index|].
    rewrite lookup_app. simpl. destruct (Text.eqb k k') eqn:E.
    + apply eqb_eq in E. subst k'. now rewrite Hk.
    + now destruct (lookup ps k').
Qed.

(** Spreading [ps] onto [target]: the last assignment of a key wins, and a
    key [ps] does not name keeps the target's value. *)
Lemma lookup_spread (ps target : props) (k : jsstring) :
  lookup (spread target (Some ps)) k =
  match lookup (rev ps) k with Some v => Some v | None => lookup target k end.
Proof.
  unfold spread. revert target; induction ps as [|[k0 v0] ps IH]; intros target; simpl.
  - reflexivity.
  - rewrite IH, lookup_app, lookup_set_prop. simpl.
    destruct (lookup (rev ps) k); [reflexivity|].
    destruct (Text.eqb k0 k); reflexivity.
Qed.

Lemma lookup_In (ps : props) (k : jsstring) (v : value) :
  lookup ps k = Some v -> In (k, v) ps.
Proof.
  induction ps as [|[k0 v0] ps IH]; simpl; [discriminate|].
  destruct (Text.eqb k0 k) eqn:E.
  - apply eqb_eq in E. subst. intros H. injection H as ->. now left.
  - auto.
Qed.

Lemma lookup_None (ps : props) (k : jsstring) :
  lookup ps k = None <-> ~ In k (map fst ps).
Proof.
  induction ps as [|[k0 v0] ps IH]; simpl; [tauto|].
  destruct (Text.eqb k0 k) eqn:E.
  - apply eqb_eq in E. subst. split; [discriminate | tauto].
  - apply eqb_neq in E. tauto.
Qed.

Lemma In_lookup (ps : props) (k : jsstring) (v : value) :
  NoDup (map fst ps) -> In (k, v) ps -> lookup ps k = Some v.
Proof.
  induction ps as [|[k0 v0] ps IH]; simpl; [tauto|].
  intros Hnd Hin. inversion Hnd as [|? ? Hk0 Hnd']; subst.
  destruct Hin as [E | Hin].
  - injection E as -> ->. now rewrite eqb_refl.
  - destruct (Text.eqb k0 k) eqn:E; [|auto].
    apply eqb_eq in E. subst. exfalso. apply Hk0.
    apply in_map_iff. now exists (k, v).
Qed.

(** An object holds a key once; then the value a configuration holds for a
    key is the entry of that key. *)
Lemma supplied_distinct (cfg : props) (k : jsstring) :
  NoDup (map fst cfg) -> supplied (Some cfg) k = lookup cfg k.
Proof.
  intros Hnd. unfold supplied.
  assert (Hrev : NoDup (map fst (rev cfg))) by (rewrite map_rev; now apply NoDup_rev).
  destruct (lookup cfg k) as [v|] eqn:E.
  - apply In_lookup; [assumption|]. apply in_rev. rewrite rev_involutive.
    now apply lookup_In.
  - apply lookup_None. rewrite map_rev, <- in_rev. now apply lookup_None.
Qed.

Lemma lookup_payload (messages : value) (config : option props) (k : jsstring) :
  lookup (payload messages config) k =
  match supplied config k with
  | Some v => Some v
  | None => lookup ((js "messages", messages) :: defaults) k
  end.
Proof.
  destruct config as [cfg|]; [|reflexivity].
  unfold payload, supplied. apply lookup_spread.
Qed.

Lemma lookup_stream_payload (messages : value) (config : option props) (k : jsstring) :
  k <> js "stream" ->
  lookup (stream_payload messages config) k = lookup (payload messages config) k.
Proof.
  intros Hk. unfold stream_payload. rewrite lookup_set_prop.
  destruct (Text.eqb (js "stream") k) eqn:E; [|reflexivity].
  apply eqb_eq in E. congruence.
Qed.

(** *** The keys of an object, in the order it enumerates them *)

Lemma keys_replace_prop (ps : props) (k : jsstring) (v : value) :
  map fst (replace_prop ps k v) = map fst ps.
Proof.
  induction ps as [|[k0 v0] ps IH]; [reflexivity|]. cbn [replace_prop].
  destruct (Text.eqb k0 k); [reflexivity|]. cbn [map fst]. now rewrite IH.
Qed.

Lemma keys_set_prop (ps : props) (k : jsstring) (v : value) :
  map fst (set_prop ps k v) =
  match lookup ps k with
  | Some _ => map fst ps
  | None =>
      match array_index k with
      | Some n => map fst (insert_index n k v ps)
      | None => map fst ps ++ [k]
      end
  end.
Proof.
  unfold set_prop. destruct (lookup ps k); [apply keys_replace_prop|].
  destruct (array_index k); [reflexivity|]. now rewrite map_app.
Qed.

Lemma insert_index_middle (n : N) (k : jsstring) (v : value) (ps : props) :
  exists a b, ps = a ++ b /\ insert_index n k v ps = a ++ (k, v) :: b.
Proof.
  induction ps as [|[k0 v0] ps [a [b [E E']]]].
  - now exists [], [].
  - cbn [insert_index]. destruct (array_index k0) as [n0|].
    + destruct (n0 <? n)%N.
      * exists ((k0, v0) :: a), b. rewrite E'. now rewrite E at 1.
      * now exists [], ((k0, v0) :: ps).
    + now exists [], ((k0, v0) :: ps).
Qed.

Lemma NoDup_set_prop (ps : props) (k : jsstring) (v : value) :
  NoDup (map fst ps) -> NoDup (map fst (set_prop ps k v)).
Proof.
  intros Hnd. rewrite keys_set_prop. destruct (lookup ps k) eqn:E; [exact Hnd|].
  apply lookup_None in E. destruct (array_index k) as [n|].
  - destruct (insert_index_middle n k v ps) as [a [b [-> ->]]].
    rewrite map_app in *. cbn [map fst].
    apply (NoDup_Add (Add_app k (map fst a) (map fst b))). now split.
  - apply NoDup_app; [exact Hnd | repeat constructor; simpl; tauto |].
    intros x Hx [<- | []]. contradiction.
Qed.

Lemma keys_insert_index (n : N) (k : jsstring) (v v' : value) (ps ps' : props) :
  map fst ps = map fst ps' ->
  map fst (insert_index n k v ps) = map fst (insert_index n k v' ps').
Proof.
  revert ps'; induction ps as [|[k0 v0] ps IH]; intros [|[k0' v0'] ps'] E;
    try discriminate E; [reflexivity|].
  cbn [map fst] in E. injection E as <- E. cbn [insert_index].
  destruct (array_index k0) as [n0|].
  - destruct (n0 <? n)%N; cbn [map fst]; f_equal; [now apply IH | now f_equal].
  - cbn [map fst]. now do 2 f_equal.
Qed.

Lemma lookup_keys (ps ps' : props) (k : jsstring) :
  map fst ps = map fst ps' -> lookup ps k = None -> lookup ps' k = None.
Proof. intros E H. apply lookup_None. rewrite <- E. now apply lookup_None. Qed.

(** The keys after an assignment depend on the keys before it only. *)
Lemma keys_set_prop_congr (ps ps' : props) (k : jsstring) (v v' : value) :
  map fst ps = map fst ps' ->
  map fst (set_prop ps k v) = map fst (set_prop ps' k v').
Proof.
  intros E. rewrite !keys_set_prop.
  destruct (lookup ps k) eqn:H, (lookup ps' k) eqn:H'; try exact E.
  - rewrite (lookup_keys ps' ps k (eq_sym E) H') in H. discriminate H.
  - rewrite (lookup_keys ps ps' k E H) in H'. discriminate H'.
  - destruct (array_index k); [now apply keys_insert_index | now rewrite E].
Qed.

Lemma keys_spread_congr (cfg target target' : props) :
  map fst target = map fst target' ->
  map fst (spread target (Some cfg)) = map fst (spread target' (Some cfg)).
Proof.
  unfold spread. revert target target'; induction cfg as [|[k v] cfg IH]; intros t t' E.
  - exact E.
  - cbn [fold_left fst snd]. apply IH. now apply keys_set_prop_congr.
Qed.

Lemma NoDup_spread (target : props) (config : option props) :
  NoDup (map fst target) -> NoDup (map fst (spread target config)).
Proof.
  destruct config as [cfg|]; [|trivial]. unfold spread.
  revert target; induction cfg as [|[k v] cfg IH]; intros target H; [exact H|].
  cbn [fold_left fst snd]. apply IH. now apply NoDup_set_prop.
Qed.

(** Two objects with the same keys in the same order and the same value
    under each key are the same object. *)
Lemma props_ext (ps ps' : props) :
  NoDup (map fst ps) ->
  map fst ps = map fst ps' ->
  (forall k, lookup ps k = lookup ps' k) ->
  ps = ps'.
Proof.
  revert ps'; induction ps as [|[k0 v0] ps IH]; intros [|[k0' v0'] ps'] Hnd E Hl;
    try discriminate E; [reflexivity|].
  cbn [map fst] in E, Hnd. injection E as <- E.
  inversion Hnd as [|? ? Hk0 Hnd']; subst.
  pose proof (Hl k0) as H0. cbn [lookup] in H0. rewrite eqb_refl in H0.
  injection H0 as <-. f_equal. apply IH; [exact Hnd' | exact E |].
  intros k. specialize (Hl k). cbn [lookup] in Hl.
  destruct (Text.eqb k0 k) eqn:Ek; [|exact Hl].
  apply eqb_eq in Ek. subst k.
  rewrite (proj2 (lookup_None ps k0)) by exact Hk0.
  rewrite (proj2 (lookup_None ps' k0)) by (rewrite <- E; exact Hk0). reflexivity.
Qed.

Lemma literal_keys (messages : value) :
  map fst ((js "messages", messages) :: defaults)
  = map js ["messages"; "temperature"; "top_p"; "frequency_penalty";
            "presence_penalty"; "max_tokens"; "stop"]%string.
Proof. reflexivity. Qed.

Lemma NoDup_literal (messages : value) :
  NoDup (map fst ((js "messages", messages) :: defaults)).
Proof.
  apply (NoDup_count_occ' (list_eq_dec Z.eq_dec)). intros k Hk.
  cbn in Hk. repeat destruct Hk as [<- | Hk]; try (vm_compute; reflexivity).
  contradiction.
Qed.

Lemma NoDup_payload (messages : value) (config : option props) :
  NoDup (map fst (payload messages config)).
Proof. apply NoDup_spread, NoDup_literal. Qed.

(** The first argument does not reach a payload whose configuration
    supplies [messages]. *)
Lemma payload_first_argument (messages messages' v : value) (config : option props) :
  supplied config (js "messages") = Some v ->
  payload messages config = payload messages' config.
Proof.
  intros Hs. apply props_ext; [apply NoDup_payload | |].
  - unfold payload. destruct config as [cfg|]; [|discriminate Hs].
    now apply keys_spread_congr.
  - intros k. rewrite !lookup_payload.
    destruct (supplied config k) eqn:Ek; [reflexivity|].
    cbn [lookup]. destruct (Text.eqb (js "messages") k) eqn:E; [|reflexivity].
    apply eqb_eq in E. subst k. congruence.
Qed.


(** *** Array indices first *)

(** A new array index goes into the ascending run of array indices that
    opens the object, and leaves what follows the run where it was. *)
Lemma insert_index_ascending (n : N) (k : jsstring) (v : value)
    (indices : list (jsstring * N)) (ps rest : props) :
  array_index k = Some n ->
  map fst ps = map fst indices ->
  Forall indexed indices ->
  StronglySorted N.le (map snd indices) ->
  not_index_first rest ->
  exists indices',
    map fst (insert_index n k v (ps ++ rest)) = map fst indices' ++ map fst rest
    /\ Forall indexed indices'
    /\ StronglySorted N.le (map snd indices')
    /\ (forall x, In x indices' -> x = (k, n) \/ In x indices).
Proof.
  intros Hk. revert ps; induction indices as [|[k0 n0] indices IH]; intros ps E Hi Hs Hr.
  - destruct ps; [|discriminate E]. exists [(k, n)]. cbn [app].
    split; [|split; [|split]].
    + destruct rest as [|[k' v'] rest]; [reflexivity|].
      cbn [insert_index]. cbn in Hr. now rewrite Hr.
    + now repeat constructor.
    + repeat constructor.
    + intros x [<- | []]. now left.
  - destruct ps as [|[k0' v0] ps]; [discriminate E|].
    cbn [map fst] in E. injection E as -> E.
    inversion Hi as [|? ? H0 Hi']; subst. unfold indexed in H0. cbn [fst snd] in H0.
    cbn [map snd] in Hs. inversion Hs as [|? ? Hs' Hle]; subst.
    cbn [app insert_index]. rewrite H0.
    destruct (N.ltb_spec n0 n) as [Hlt | Hge].
    + destruct (IH ps E Hi' Hs' Hr) as [indices' [Hkeys [Hi'' [Hs'' Hin]]]].
      exists ((k0, n0) :: indices'). cbn [map fst snd app]. rewrite Hkeys.
      split; [reflexivity|]. split; [now constructor|]. split.
      * constructor; [exact Hs''|]. apply Forall_forall. intros m Hm.
        apply in_map_iff in Hm as [[k1 n1] [<- Hx]]. cbn [snd].
        destruct (Hin _ Hx) as [Ex | Hx'].
        -- injection Ex as _ ->. lia.
        -- rewrite Forall_forall in Hle. apply Hle.
           apply in_map_iff. now exists (k1, n1).
      * intros x [<- | Hx]; [right; now left|].
        destruct (Hin x Hx); [now left | right; now right].
    + exists ((k, n) :: (k0, n0) :: indices). cbn [map fst snd app].
      split; [now rewrite map_app, E|]. split; [now repeat constructor|]. split.
      * constructor; [now constructor|]. constructor; [exact Hge|].
        eapply Forall_impl; [|exact Hle]. intros m Hm. cbn in Hm. lia.
      * intros x [<- | Hx]; [now left | now right].
Qed.

Lemma payload_shape_more (cfg : props) (kv : jsstring * value) (keys : list jsstring) :
  payload_shape cfg keys -> payload_shape (cfg ++ [kv]) keys.
Proof.
  intros [indices [extra [E [Hi [Hs [He Hin]]]]]]. exists indices, extra.
  repeat (split; [assumption|]). intros k Hk. rewrite map_app, in_app_iff. left. auto.
Qed.

Lemma payload_shape_set_prop (cfg target : props) (k : jsstring) (v : value) :
  payload_shape cfg (map fst target) ->
  payload_shape (cfg ++ [(k, v)]) (map fst (set_prop target k v)).
Proof.
  intros H. rewrite keys_set_prop.
  destruct (lookup target k) eqn:Hl; [now apply payload_shape_more|].
  destruct H as [indices [extra [E [Hi [Hs [He Hin]]]]]].
  assert (Hmore : forall k', In k' (map fst indices ++ extra) ->
                             In k' (map fst (cfg ++ [(k, v)]))).
  { intros k' Hk'. rewrite map_app, in_app_iff. left. auto. }
  assert (Hnew : In k (map fst (cfg ++ [(k, v)]))).
  { rewrite map_app, in_app_iff. right. now left. }
  destruct (array_index k) as [n|] eqn:Hk.
  - apply map_eq_app in E as [ps [rest [-> [Eps Erest]]]].
    assert (Hr : not_index_first rest).
    { destruct rest as [|[k' v'] rest]; [exact I|].
      cbn in Erest. injection Erest as -> _. reflexivity. }
    destruct (insert_index_ascending n k v indices ps rest Hk Eps Hi Hs Hr)
      as [indices' [Hkeys [Hi' [Hs' Hin']]]].
    exists indices', extra. rewrite Hkeys, Erest.
    split; [reflexivity|]. repeat (split; [assumption|]).
    intros k' Hk'. apply in_app_iff in Hk' as [Hk' | Hk'].
    + apply in_map_iff in Hk' as [x [<- Hx]].
      destruct (Hin' x Hx) as [-> | Hx']; [exact Hnew|].
      apply Hmore, in_app_iff. left. apply in_map_iff. now exists x.
    + apply Hmore, in_app_iff. now right.
  - exists indices, (extra ++ [k]). rewrite E, <- !app_assoc.
    split; [reflexivity|]. repeat (split; [assumption|]).
    split; [apply Forall_app; split; [exact He | now repeat constructor]|].
    intros k' Hk'. rewrite app_assoc in Hk'. apply in_app_iff in Hk' as [Hk' | [<- | []]].
    + now apply Hmore.
    + exact Hnew.
Qed.

Lemma payload_shape_spread (cfg done target : props) :
  payload_shape done (map fst target) ->
  payload_shape (done ++ cfg) (map fst (spread target (Some cfg))).
Proof.
  unfold spread. revert done target; induction cfg as [|[k v] cfg IH]; intros done target H.
  - now rewrite app_nil_r.
  - cbn [fold_left fst snd].
    change ((k, v) :: cfg) with ([(k, v)] ++ cfg). rewrite app_assoc.
    apply IH. now apply payload_shape_set_prop.
Qed.

(** *** Members of the serialized object *)

Section WithRuntime.
Context {rt : Runtime}.

(** A property whose value can be serialized is a member of the text of its
    object. *)
Lemma JSON_stringify_member (ps : props) (k : jsstring) (v : value) (text : jsstring) :
  In (k, v) ps ->
  Json.JSON_stringify v = Some text ->
  exists before after,
    Json.JSON_stringify (JObj ps)
    = Some (js "{" ++ join (js ",") (before ++ (Json.quote k ++ js ":" ++ text) :: after)
                 ++ js "}").
Proof.
  intros Hin Hv. cbn [Json.JSON_stringify].
  match goal with |- context [join _ (?f ps)] => set (each := f) end.
  assert (Happ : forall a b, each (a ++ b) = each a ++ each b).
  { induction a as [|[k0 v0] a IH]; intros b; [reflexivity|].
    cbn [app]. unfold each at 1 3. cbn. fold each.
    destruct (Json.JSON_stringify v0); [now rewrite IH | apply IH]. }
  apply in_split in Hin as [a [b ->]].
  exists (each a), (each b). rewrite Happ.
  do 4 f_equal. unfold each at 1. cbn. fold each. now rewrite Hv.
Qed.

End WithRuntime.

End ClientFacts.

(** ** The request payload and [getChatResponse] *)

Module ClientSpec.
Import Text Js Chat Samples TextFacts JsFacts ClientFacts.

Section WithRuntime.
Context {rt : Runtime}.

(** C7: the body of either request is the serialized payload (with
    [stream: true] added for [getChatStream]); a field the configuration
    does not supply has the value of the literal, that is the positional
    [messages] and the defaults 0.7, 1, 0, 0, 60 and the empty string; a
    field it supplies has the supplied value; and a call without overrides
    (no configuration, or an empty one) sends the literal itself, so two
    such calls with the same messages send the same body. The last part
    shows that body, as the reference runtime prints it. *)
Theorem payload_defaults_and_overrides (this : ChatClient) (messages : value)
    (config : option props) :
  body (getChatResponse_request this messages config)
    = Json.JSON_stringify (JObj (payload messages config))
  /\ body (getChatStream_request this messages config)
    = Json.JSON_stringify (JObj (stream_payload messages config))
  /\ (forall k, supplied config k = None ->
        lookup (payload messages config) k = lookup ((js "messages", messages) :: defaults) k)
  /\ (forall k v, supplied config k = Some v ->
        lookup (payload messages config) k = Some v)
  /\ (forall k, k <> js "stream" ->
        lookup (stream_payload messages config) k = lookup (payload messages config) k)
  /\ lookup (stream_payload messages config) (js "stream") = Some (JBool true)
  /\ lookup ((js "messages", messages) :: defaults) (js "messages") = Some messages
  /\ lookup ((js "messages", messages) :: defaults) (js "temperature")
       = Some (JNum (Number_of_decimal false 7 (-1)))
  /\ lookup ((js "messages", messages) :: defaults) (js "top_p")
       = Some (JNum (Number_of_decimal false 1 0))
  /\ lookup ((js "messages", messages) :: defaults) (js "frequency_penalty")
       = Some (JNum (Number_of_decimal false 0 0))
  /\ lookup ((js "messages", messages) :: defaults) (js "presence_penalty")
       = Some (JNum (Number_of_decimal false 0 0))
  /\ lookup ((js "messages", messages) :: defaults) (js "max_tokens")
       = Some (JNum (Number_of_decimal false 60 0))
  /\ lookup ((js "messages", messages) :: defaults) (js "stop") = Some (JStr [])
  /\ payload messages None = (js "messages", messages) :: defaults
  /\ payload messages (Some []) = payload messages None
  /\ getChatResponse_request this messages (Some []) = getChatResponse_request this messages None
  /\ getChatStream_request this messages (Some []) = getChatStream_request this messages None
  /\ body (getChatResponse_request (rt := Json.reference) this (user_says "hi") None)
       = Some (js "{'messages':[{'role':'user','content':'hi'}],'temperature':0.7,'top_p':1,'frequency_penalty':0,'presence_penalty':0,'max_tokens':60,'stop':''}")
  /\ body (getChatStream_request (rt := Json.reference) this (user_says "hi") None)
       = Some (js "{'messages':[{'role':'user','content':'hi'}],'temperature':0.7,'top_p':1,'frequency_penalty':0,'presence_penalty':0,'max_tokens':60,'stop':'','stream':true}").
Proof.
  repeat match goal with |- _ /\ _ => split end; try reflexivity.
  - intros k Hk. now rewrite lookup_payload, Hk.
  - intros k v Hk. now rewrite lookup_payload, Hk.
  - intros k Hk. now apply lookup_stream_payload.
  - unfold stream_payload. now rewrite lookup_set_prop, eqb_refl.
Qed.

(** C9: a field the configuration supplies goes into the payload with the
    supplied value, whatever the positional argument and the default; so it
    does in the object [getChatStream] sends, whose only further assignment
    is [stream] (not a field of the configuration's type). In the request
    body the field is a member with the supplied value as [JSON.stringify]
    writes it. A configuration that supplies [messages] replaces the first
    argument: the bodies of both requests are the same whatever the first
    argument is. *)
Theorem config_takes_precedence (this : ChatClient) (messages : value)
    (config : option props) (k : jsstring) (v : value) :
  supplied config k = Some v ->
  lookup (payload messages config) k = Some v
  /\ (k <> js "stream" -> lookup (stream_payload messages config) k = Some v)
  /\ (k = js "messages" ->
        lookup (payload messages config) (js "messages") = Some v
        /\ lookup (stream_payload messages config) (js "messages") = Some v)
  /\ body (getChatResponse_request this messages config)
       = Json.JSON_stringify (JObj (payload messages config))
  /\ body (getChatStream_request this messages config)
       = Json.JSON_stringify (JObj (stream_payload messages config))
  /\ (forall text, Json.JSON_stringify v = Some text ->
        (exists before after,
           body (getChatResponse_request this messages config)
           = Some (js "{" ++ join (js ",")
                                  (before ++ (Json.quote k ++ js ":" ++ text) :: after)
                        ++ js "}"))
        /\ (k <> js "stream" ->
            exists before after,
              body (getChatStream_request this messages config)
              = Some (js "{" ++ join (js ",")
                                     (before ++ (Json.quote k ++ js ":" ++ text) :: after)
                           ++ js "}")))
  /\ (k = js "messages" ->
        forall messages',
          body (getChatResponse_request this messages config)
          = body (getChatResponse_request this messages' config)
          /\ body (getChatStream_request this messages config)
             = body (getChatStream_request this messages' config)).
Proof.
  intros Hk.
  assert (Hp : lookup (payload messages config) k = Some v)
    by (now rewrite lookup_payload, Hk).
  assert (Hs : k <> js "stream" -> lookup (stream_payload messages config) k = Some v).
  { intros Hne. rewrite lookup_stream_payload; [exact Hp|].
    intros E. apply Hne. now symmetry. }
  split; [exact Hp|]. split; [exact Hs|].
  split.
  { intros ->. split; [exact Hp|]. apply Hs. intros E. apply eqb_eq in E. discriminate E. }
  split; [reflexivity|]. split; [reflexivity|].
  split.
  { intros text Ht. split.
    - apply (JSON_stringify_member _ k v); [now apply lookup_In | exact Ht].
    - intros Hne. apply (JSON_stringify_member _ k v); [|exact Ht].
      apply lookup_In. now apply Hs. }
  intros -> messages'.
  unfold getChatResponse_request, getChatStream_request, stream_payload.
  now rewrite (payload_first_argument messages messages' v config Hk).
Qed.

(** C5 (as amended): a response whose top choice's finish reason is not
    "stop" makes the call fail, whatever else the response holds; a response
    whose top choice's finish reason is "stop", that has no error field and
    that carries [usage.total_tokens] as a number (as the declared response
    type has it) is returned as parsed. *)
Theorem finish_reason_check (this : ChatClient) (fetch : Request -> result Response)
    (messages : value) (config : option props) (res : Response) (result : value) :
  fetch (getChatResponse_request this messages config) = Ok res ->
  json res = Ok result ->
  (top_finish_reason result <> Ok (JStr (js "stop")) ->
     exists e, getChatResponse this fetch messages config = Throw e)
  /\ (top_finish_reason result = Ok (JStr (js "stop")) ->
      Get result (js "error") = Ok undefined ->
      forall usage n,
        Get result (js "usage") = Ok usage ->
        Get usage (js "total_tokens") = Ok (JNum n) ->
        getChatResponse this fetch messages config = Ok result).
Proof.
  intros Hfetch Hjson. unfold getChatResponse. rewrite Hfetch. cbn [bind]. rewrite Hjson.
  cbn [bind]. split.
  - intros Hnot.
    destruct (Get result (js "error")) as [error | e]; cbn [bind]; [|now exists e].
    destruct (Boolean error).
    + destruct (Get error (js "message")) as [message | e]; cbn [bind]; [|now exists e].
      destruct (JsFacts.throw_new_Error_throws (A := value) message) as [e [He _]]. now exists e.
    + destruct (top_finish_reason result) as [finish_reason | e]; cbn [bind]; [|now exists e].
      destruct (strict_equals_string finish_reason (js "stop")) eqn:Es.
      * apply strict_equals_string_true in Es. congruence.
      * cbn [negb]. destruct (ToString finish_reason) as [reason | e]; cbn [bind]; eauto.
  - intros Hstop Herr usage n Husage Htotal.
    rewrite Herr. cbn [bind Boolean]. rewrite Hstop. cbn [bind].
    replace (strict_equals_string (JStr (js "stop")) (js "stop")) with true
      by (symmetry; now apply strict_equals_string_true).
    cbn [negb]. rewrite Husage. cbn [bind]. rewrite Htotal. reflexivity.
Qed.

(** C10: with an empty [choices] and no error field, reading the top
    choice's finish reason does not fail: [choices[0]] is [undefined] and the
    optional access gives [undefined]. The call then fails at the comparison
    with "stop", with the error of that check and not a [TypeError]. *)
Theorem empty_choices_fail_the_finish_reason_check (this : ChatClient)
    (fetch : Request -> result Response) (messages : value) (config : option props)
    (res : Response) (result : value) :
  fetch (getChatResponse_request this messages config) = Ok res ->
  json res = Ok result ->
  Get result (js "error") = Ok undefined ->
  Get result (js "choices") = Ok (JArr []) ->
  GetIndex0 (JArr []) = Ok undefined
  /\ top_finish_reason result = Ok undefined
  /\ getChatResponse this fetch messages config
     = Throw (Error (js "Chat stopped due to undefined")).
Proof.
  intros Hfetch Hjson Herr Hchoices.
  assert (Htop : top_finish_reason result = Ok undefined).
  { unfold top_finish_reason. rewrite Hchoices. reflexivity. }
  repeat split; [exact Htop|].
  unfold getChatResponse. rewrite Hfetch. cbn [bind]. rewrite Hjson. cbn [bind].
  rewrite Herr. cbn [bind Boolean]. rewrite Htop. reflexivity.
Qed.

End WithRuntime.

(** *** Concrete calls, run on the reference runtime *)

(** A configuration that supplies [messages] and [temperature]: the two
    bodies hold the supplied values, and they are the bodies of the call with
    any other first argument. *)
Lemma config_takes_precedence_witness :
  let config := Some [(js "messages", user_says "override");
                      (js "temperature", JNum (Number_of_decimal false 0 0))] in
  body (getChatResponse_request (rt := Json.reference) client (user_says "hi") config)
  = Some (js "{'messages':[{'role':'user','content':'override'}],'temperature':0,'top_p':1,'frequency_penalty':0,'presence_penalty':0,'max_tokens':60,'stop':''}")
  /\ body (getChatStream_request (rt := Json.reference) client (user_says "hi") config)
     = Some (js "{'messages':[{'role':'user','content':'override'}],'temperature':0,'top_p':1,'frequency_penalty':0,'presence_penalty':0,'max_tokens':60,'stop':'','stream':true}")
  /\ body (getChatResponse_request (rt := Json.reference) client (user_says "hi") config)
     = body (getChatResponse_request (rt := Json.reference) client (user_says "bye") config)
  /\ body (getChatStream_request (rt := Json.reference) client (user_says "hi") config)
     = body (getChatStream_request (rt := Json.reference) client (user_says "bye") config).
Proof.
  intros config.
  destruct (config_takes_precedence (rt := Json.reference) client (user_says "hi") config
              (js "messages") (user_says "override")) as [_ [_ [_ [_ [_ [_ Hm]]]]]].
  - vm_compute. reflexivity.
  - destruct (Hm eq_refl (user_says "bye")) as [Hresponse Hstream].
    split; [vm_compute; reflexivity|]. split; [vm_compute; reflexivity|].
    split; [exact Hresponse | exact Hstream].
Defined.

(** A configuration that names a field with the value [undefined] supplies
    [undefined]: the payload holds it in place of the default, and
    [JSON.stringify] leaves the field out of the body. *)
Lemma undefined_override_leaves_the_field_out :
  let config := Some [(js "temperature", undefined)] in
  lookup (payload (user_says "hi") config) (js "temperature") = Some undefined
  /\ body (getChatResponse_request (rt := Json.reference) client (user_says "hi") config)
     = Some (js "{'messages':[{'role':'user','content':'hi'}],'top_p':1,'frequency_penalty':0,'presence_penalty':0,'max_tokens':60,'stop':''}").
Proof. vm_compute. split; reflexivity. Qed.

(** A "stop" response is returned as parsed; a "length" response with the
    same content fails. *)
Lemma finish_reason_check_witness :
  getChatResponse (rt := Json.reference) client (answers (Utf8.bytes stop_response))
    (user_says "hi") None
  = JSON_parse (Runtime := Json.reference) (js stop_response)
  /\ exists e,
       getChatResponse (rt := Json.reference) client (answers (Utf8.bytes length_response))
         (user_says "hi") None
       = Throw e.
Proof.
  split.
  - edestruct (finish_reason_check (rt := Json.reference) client
                 (answers (Utf8.bytes stop_response)) (user_says "hi") None) as [_ Hret].
    + reflexivity.
    + vm_compute. reflexivity.
    + erewrite Hret.
      * vm_compute. reflexivity.
      * vm_compute. reflexivity.
      * vm_compute. reflexivity.
      * vm_compute. reflexivity.
      * vm_compute. reflexivity.
  - edestruct (finish_reason_check (rt := Json.reference) client
                 (answers (Utf8.bytes length_response)) (user_says "hi") None) as [Hfail _].
    + reflexivity.
    + vm_compute. reflexivity.
    + apply Hfail. vm_compute. discriminate.
Defined.

(** C5, as stated, fails for a "stop" response without an error field that
    carries no [usage]: the call throws while it builds the log entry. *)
Lemma stop_response_without_usage_fails :
  bind (JSON_parse (Runtime := Json.reference) (js stop_response_without_usage))
       top_finish_reason
  = Ok (JStr (js "stop"))
  /\ bind (JSON_parse (Runtime := Json.reference) (js stop_response_without_usage))
          (fun result => Get result (js "error"))
     = Ok undefined
  /\ getChatResponse (rt := Json.reference) client
       (answers (Utf8.bytes stop_response_without_usage)) (user_says "hi") None
     = Throw TypeError.
Proof. vm_compute. repeat split; reflexivity. Qed.

(** A response with no choice at all. *)
Lemma empty_choices_witness :
  getChatResponse (rt := Json.reference) client
    (answers (Utf8.bytes empty_choices_response)) (user_says "hi") None
  = Throw (Error (js "Chat stopped due to undefined")).
Proof.
  edestruct (empty_choices_fail_the_finish_reason_check (rt := Json.reference) client
               (answers (Utf8.bytes empty_choices_response)) (user_says "hi") None)
    as [_ [_ Hfail]].
  - reflexivity.
  - vm_compute. reflexivity.
  - vm_compute. reflexivity.
  - vm_compute. reflexivity.
  - exact Hfail.
Defined.

End ClientSpec.

(** ** More on the frame pattern *)

Module RegexMore.
Import Text Regex TextFacts RegexFacts.

Lemma starts_with_app (a b s : jsstring) :
  starts_with (a ++ b) s =
  match starts_with a s with
  | Some rest => starts_with b rest
  | None => None
  end.
Proof.
  revert s; induction a as [|x a IH]; intros s; [reflexivity|].
  destruct s as [|y s]; [reflexivity|]. simpl.
  destruct (x =? y); [apply IH | reflexivity].
Qed.

(** The pattern as a function of the line: what follows [data: {] has to
    close the frame, and the capture is the line without [data: ]. *)
Lemma first_group_data_frame (wholeLine : jsstring) :
  first_group data_frame wholeLine =
  match starts_with (js "data: {") wholeLine with
  | Some body => if closes_frame body then Some (js "{" ++ body) else None
  | None => None
  end.
Proof.
  change data_frame with
    (Caret :: map Lit (js "data: ")
           ++ GroupOpen :: map Lit (js "{") ++ [DotStar; Lit 125; GroupClose; Dollar]).
  change (js "data: {") with (js "data: " ++ js "{").
  rewrite first_group_anchored, match_here_lits, starts_with_app.
  destruct (starts_with (js "data: ") wholeLine) as [rest|]; [|reflexivity].
  cbn [match_here]. rewrite match_here_lits.
  destruct (starts_with (js "{") rest) as [body|]; [|reflexivity].
  rewrite (match_here_body body [123]) by reflexivity.
  destruct (closes_frame body); reflexivity.
Qed.

Lemma first_group_data_frame_Some (wholeLine m : jsstring) :
  first_group data_frame wholeLine = Some m ->
  exists body, wholeLine = js "data: " ++ m /\ m = js "{" ++ body /\ closes_frame body = true.
Proof.
  rewrite first_group_data_frame.
  destruct (starts_with (js "data: {") wholeLine) as [body|] eqn:E; [|discriminate].
  apply starts_with_spec in E. subst wholeLine.
  destruct (closes_frame body) eqn:Hc; [|discriminate].
  intros H. injection H as <-. exists body.
  split; [reflexivity | split; [reflexivity | exact Hc]].
Qed.

Lemma closes_frame_last (s : jsstring) (c : code_unit) :
  closes_frame (s ++ [c]) = true -> c = 125.
Proof.
  induction s as [|a s IH]; simpl.
  - apply Z.eqb_eq.
  - destruct (s ++ [c]) eqn:E; [destruct s; discriminate|].
    rewrite andb_true_iff. intros [_ H]. apply IH, H.
Qed.

(** A line the pattern matches ends with the closing brace. *)
Lemma first_group_data_frame_last (l : jsstring) (c : code_unit) :
  c <> 125 -> first_group data_frame (l ++ [c]) = None.
Proof.
  intros Hc. destruct (first_group data_frame (l ++ [c])) as [m|] eqn:E; [|reflexivity].
  exfalso. apply first_group_data_frame_Some in E as [body [E [-> Hb]]].
  destruct (exists_last (l := body)) as [b' [z Eb]].
  { intros ->. discriminate Hb. }
  subst body. apply closes_frame_last in Hb. subst z.
  rewrite !app_assoc in E.
  apply app_inj_tail in E as [_ E]. congruence.
Qed.

End RegexMore.

(** ** Line feeds through the decoder *)

Module DecoderFacts.
Import Text Utf8 Utf8Facts Counting.

Lemma line_feeds_app (a b : list Z) : line_feeds (a ++ b) = (line_feeds a + line_feeds b)%nat.
Proof. apply count_occ_app. Qed.

Lemma line_feeds_cons (b : Z) (s : list Z) :
  line_feeds (b :: s) = (line_feeds [b] + line_feeds s)%nat.
Proof. apply (line_feeds_app [b] s). Qed.

Lemma line_feeds_other (b : Z) : b <> LF -> line_feeds [b] = 0%nat.
Proof.
  intros H. unfold line_feeds. cbn [count_occ].
  destruct (Z.eq_dec b LF); [contradiction | reflexivity].
Qed.

Lemma continuation (cp b : Z) :
  Z.lor (Z.shiftl cp 6) (Z.land b 63) = cp * 64 + b mod 64.
Proof.
  change 63 with (Z.ones 6). rewrite Z.land_ones by lia.
  pose proof (Z.add_lor_land (Z.shiftl cp 6) (b mod 2 ^ 6)) as E.
  replace (Z.land (Z.shiftl cp 6) (b mod 2 ^ 6)) with 0 in E.
  - rewrite Z.shiftl_mul_pow2 in E by lia. change (2 ^ 6) with 64 in *.
    rewrite Z.shiftl_mul_pow2 by lia. change (2 ^ 6) with 64. lia.
  - symmetry. apply Z.bits_inj'. intros n Hn.
    rewrite Z.land_spec, Z.bits_0.
    destruct (Z.ltb_spec n 6).
    + rewrite Z.shiftl_spec_low by lia. reflexivity.
    + rewrite Z.mod_pow2_bits_high by lia. apply andb_false_r.
Qed.

Lemma low_bits (b k : Z) : 0 <= k -> Z.land b (Z.ones k) = b mod 2 ^ k.
Proof. apply Z.land_ones. Qed.

Lemma lead_line_feeds (b : Z) :
  0 <= b ->
  line_feeds (snd (lead b)) = line_feeds [b] /\ pending_ok (fst (lead b)).
Proof.
  intros Hb. unfold lead, within, pending_ok.
  destruct (Z.leb_spec 0 b); [|lia]. cbn [andb].
  destruct (Z.leb_spec b 127); [split; [reflexivity | cbn; lia]|].
  rewrite (line_feeds_other b) by (unfold LF; lia).
  destruct (Z.leb_spec 194 b), (Z.leb_spec b 223); cbn [andb fst snd].
  1: { split; [reflexivity|]. intros _. cbn.
       change 31 with (Z.ones 5). rewrite low_bits by lia. change (2 ^ 5) with 32.
       pose proof (Z.div_mod b 32). pose proof (Z.mod_pos_bound b 32). lia. }
  all: destruct (Z.leb_spec 224 b), (Z.leb_spec b 239); cbn [andb fst snd].
  all: try (split; [reflexivity|]; intros _; cbn;
            change 15 with (Z.ones 4); rewrite low_bits by lia; change (2 ^ 4) with 16;
            pose proof (Z.div_mod b 16); pose proof (Z.mod_pos_bound b 16);
            destruct (Z.eqb_spec b 224), (Z.eqb_spec b 237); lia).
  all: destruct (Z.leb_spec 240 b), (Z.leb_spec b 244); cbn [andb fst snd].
  all: try (split; [reflexivity|]; intros _; cbn;
            change 7 with (Z.ones 3); rewrite low_bits by lia; change (2 ^ 3) with 8;
            pose proof (Z.div_mod b 8); pose proof (Z.mod_pos_bound b 8);
            destruct (Z.eqb_spec b 240), (Z.eqb_spec b 244); lia).
  all: split; [reflexivity | cbn; lia].
Qed.

Lemma handler_line_feeds (d : decoder) (b : Z) :
  0 <= b ->
  pending_ok d ->
  line_feeds (snd (handler d b)) = line_feeds [b] /\ pending_ok (fst (handler d b)).
Proof.
  intros Hb Hd. unfold handler.
  destruct (Z.eqb_spec (bytes_needed d) 0) as [|Hn]; [now apply lead_line_feeds|].
  destruct (Hd Hn) as [Hpos [Hlo [Hhi Hcp]]].
  destruct (within (lower_boundary d) (upper_boundary d) b) eqn:Hw; cbn [negb].
  - unfold within in Hw. apply andb_true_iff in Hw as [H1 H2].
    apply Z.leb_le in H1, H2.
    rewrite continuation.
    pose proof (Z.div_mod b 64). pose proof (Z.mod_pos_bound b 64).
    rewrite (line_feeds_other b) by (unfold LF; lia).
    destruct (bytes_seen d + 1 =? bytes_needed d); cbn [fst snd].
    + split; [|unfold pending_ok; cbn [fresh bytes_needed]; lia].
      apply line_feeds_other. unfold LF. lia.
    + split; [reflexivity|]. intros _.
      cbn [code_point lower_boundary upper_boundary]. lia.
  - destruct (lead_line_feeds b Hb) as [Hl Hp]. destruct (lead b) as [d' out].
    cbn [fst snd] in *. split; [|exact Hp].
    rewrite line_feeds_cons, Hl. now rewrite line_feeds_other by discriminate.
Qed.

Lemma run_line_feeds (bytes : list Z) (d : decoder) :
  Forall (fun b => 0 <= b) bytes ->
  pending_ok d ->
  line_feeds (run d bytes) = line_feeds bytes.
Proof.
  intros H; revert d; induction H as [|b bytes Hb _ IH]; intros d Hd.
  - cbn [run]. destruct (bytes_needed d =? 0); reflexivity.
  - cbn [run]. destruct (handler_line_feeds d b Hb Hd) as [Hout Hnext].
    destruct (handler d b) as [d' out]. cbn [fst snd] in *.
    now rewrite line_feeds_app, Hout, (IH d' Hnext), <- line_feeds_cons.
Qed.

Lemma strip_bom_line_feeds (cps : list Z) : line_feeds (strip_bom cps) = line_feeds cps.
Proof.
  destruct cps as [|cp rest]; [reflexivity|]. unfold strip_bom.
  destruct (Z.eqb_spec cp BOM) as [->|]; [|reflexivity].
  now rewrite (line_feeds_cons BOM), line_feeds_other by discriminate.
Qed.

Lemma utf16_line_feeds (cps : list Z) : line_feeds (flat_map utf16 cps) = line_feeds cps.
Proof.
  induction cps as [|cp cps IH]; [reflexivity|].
  cbn [flat_map]. rewrite line_feeds_app, IH, (line_feeds_cons cp). f_equal.
  unfold utf16. destruct (Z.ltb_spec cp 65536); [reflexivity|].
  assert (0 <= Z.shiftr (cp - 65536) 10) by (apply Z.shiftr_nonneg; lia).
  assert (0 <= Z.land (cp - 65536) 1023) by (apply Z.land_nonneg; right; lia).
  rewrite line_feeds_cons, !line_feeds_other by (unfold LF; lia). reflexivity.
Qed.

Lemma byte_value_nonneg (value : list byte) : Forall (fun b => 0 <= b) (map byte_value value).
Proof.
  apply Forall_forall. intros z Hz. apply in_map_iff in Hz as [b [<- _]].
  unfold byte_value. lia.
Qed.

Lemma byte_value_line_feed (b : byte) : byte_value b = LF <-> b = x0a.
Proof.
  split; [|now intros ->]. unfold byte_value, LF. intros H.
  assert (E : Byte.to_N b = 10%N) by lia.
  pose proof (Byte.of_to_N b) as Hb. rewrite E in Hb. now injection Hb.
Qed.

Lemma line_feeds_byte_values (value : list byte) :
  line_feeds (map byte_value value) = line_feed_bytes value.
Proof.
  unfold line_feeds, line_feed_bytes.
  induction value as [|b value IH]; [reflexivity|].
  cbn [map count_occ]. rewrite IH.
  destruct (Z.eq_dec (byte_value b) LF) as [E|E], (byte_eq_dec b x0a) as [E'|E'];
    try reflexivity.
  - apply byte_value_line_feed in E. congruence.
  - apply byte_value_line_feed in E'. congruence.
Qed.

Lemma decode_line_feeds (value : list byte) :
  line_feeds (decode value) = line_feed_bytes value.
Proof.
  unfold decode.
  rewrite utf16_line_feeds, strip_bom_line_feeds, run_line_feeds, line_feeds_byte_values.
  - reflexivity.
  - apply byte_value_nonneg.
  - intros H. now contradiction H.
Qed.

End DecoderFacts.

(** ** Line feeds and whole lines *)

Module LineFeedFacts.
Import Text Js Chat Samples TextFacts LoopFacts Counting DecoderFacts.

Lemma decoded_line_feeds (reads : list (list byte)) :
  line_feeds (decoded reads) = line_feed_bytes (List.concat reads).
Proof.
  unfold decoded. induction reads as [|value later IH]; [reflexivity|].
  cbn [map List.concat]. rewrite line_feeds_app, IH, decode_line_feeds.
  unfold line_feed_bytes. now rewrite count_occ_app.
Qed.

Lemma split_length (s : jsstring) :
  List.length (split s LF) = S (line_feeds s).
Proof.
  unfold line_feeds. induction s as [|a s IH]; [reflexivity|].
  cbn [split count_occ].
  destruct (Z.eqb_spec a LF) as [->|Hne].
  - destruct (Z.eq_dec LF LF); [|contradiction]. cbn [List.length]. now rewrite IH.
  - destruct (Z.eq_dec a LF); [contradiction|].
    destruct (split s LF) as [|piece pieces]; [discriminate IH | exact IH].
Qed.

Lemma lines_length (h : jsstring) :
  closed h -> (List.length (lines h) <= line_feeds h)%nat.
Proof.
  intros [-> | [h' ->]]; [apply Nat.le_refl|].
  change (h' ++ [LF]) with (h' ++ LF :: []).
  rewrite lines_sep_app, line_feeds_app. change (lines []) with (@nil jsstring).
  rewrite app_nil_r. unfold lines.
  pose proof (filter_length_le nonempty (split h' LF)) as Hle.
  rewrite split_length in Hle. change (line_feeds [LF]) with 1%nat. lia.
Qed.

Lemma wholeLines_length (w : jsstring) :
  (List.length (wholeLines w) <= line_feeds w)%nat.
Proof.
  rewrite wholeLines_cut. pose proof (lines_length _ (closed_cut w)) as Hle.
  rewrite <- (cut_app LF w) at 2. rewrite line_feeds_app. lia.
Qed.

Lemma matches_length (ls : list jsstring) :
  (List.length (matches ls) <= List.length ls)%nat.
Proof.
  unfold matches.
  etransitivity; [apply filter_length_le | now rewrite length_map].
Qed.

Lemma frames_length (reads : list (list byte)) :
  (List.length (frames reads) <= line_feed_bytes (List.concat reads))%nat.
Proof.
  unfold frames. rewrite <- decoded_line_feeds.
  etransitivity; [apply matches_length | apply wholeLines_length].
Qed.

Section WithRuntime.
Context {rt : Runtime}.

Lemma for_matches_length (ms : list (option jsstring)) :
  (List.length (yielded (for_matches ms)) <= List.length ms)%nat.
Proof.
  induction ms as [|m ms IH]; [apply Nat.le_refl|].
  cbn [for_matches]. destruct (parse_item m) as [item|e].
  - rewrite andThen_returns. cbn [yielded app List.length]. lia.
  - cbn. lia.
Qed.

End WithRuntime.
End LineFeedFacts.

(** ** More on the read loop *)

Module StreamMore.
Import Text Js Chat Samples TextFacts JsFacts LoopFacts RegexMore.
Import Counting DecoderFacts LineFeedFacts.

Lemma matches_In (ls : list jsstring) (f : option jsstring) :
  In f (matches ls) ->
  exists line m, In line ls /\ f = Some m
                 /\ Regex.first_group Regex.data_frame line = Some m.
Proof.
  unfold matches. intros H. apply filter_In in H as [H Hb].
  apply in_map_iff in H as [line [E Hin]].
  destruct f as [m|]; [|discriminate Hb]. now exists line, m.
Qed.

Lemma matches_none (ls : list jsstring) :
  Forall (fun line => Regex.first_group Regex.data_frame line = None) ls -> matches ls = [].
Proof.
  induction 1 as [|line ls Hl _ IH]; [reflexivity|].
  unfold matches in *. simpl. rewrite Hl. simpl. exact IH.
Qed.

(** X5: what reaches [JSON.parse] is never [undefined]: every frame is the
    capture of a whole line of the text received, that line is [data: ]
    followed by the capture, and the capture opens with a brace and closes
    with the brace that ends the line. *)
Theorem frames_are_whole_lines (reads : list (list byte)) (f : option jsstring) :
  In f (frames reads) ->
  exists m body,
    f = Some m
    /\ m = js "{" ++ body
    /\ Regex.closes_frame body = true
    /\ In (js "data: " ++ m) (wholeLines (decoded reads)).
Proof.
  intros H. apply matches_In in H as [line [m [Hin [-> Hg]]]].
  apply first_group_data_frame_Some in Hg as [body [-> [Hm Hb]]].
  now exists m, body.
Qed.

Section WithRuntime.
Context {rt : Runtime}.

(** X6: a stream whose lines end with CR LF yields nothing: a whole line
    that ends with a carriage return does not match the pattern ([.] does
    not take it and [$] wants the end of the line), so when every whole line
    received ends with one there is no frame, no event and no error. *)
Theorem carriage_return_lines_are_no_frames (reads : list (list byte)) :
  Forall (fun line => exists l, line = l ++ [CR]) (wholeLines (decoded reads)) ->
  frames reads = [] /\ read_loop reads [] = returns [].
Proof.
  intros H.
  assert (Hf : frames reads = []).
  { apply matches_none. eapply Forall_impl; [|exact H].
    intros line [l ->]. apply first_group_data_frame_last. discriminate. }
  split; [exact Hf|].
  rewrite read_loop_decoded. fold (frames reads). now rewrite Hf.
Qed.

Lemma parse_item_Ok (m : option jsstring) (item : value) :
  parse_item m = Ok item ->
  exists s, m = Some s
            /\ JSON_parse s = Ok item
            /\ Boolean (OptGet (OptGet item (js "error")) (js "message")) = false
            /\ isArray (OptGet item (js "choices")) = true.
Proof.
  unfold parse_item. destruct m as [s|]; [|discriminate].
  destruct (JSON_parse s) as [parsed|e] eqn:Hp; [|discriminate]. cbn [bind].
  destruct (Boolean (OptGet (OptGet parsed (js "error")) (js "message"))) eqn:Hb.
  - destruct (throw_new_Error_throws (A := value)
                (OptGet (OptGet parsed (js "error")) (js "message"))) as [e [-> _]].
    discriminate.
  - destruct (isArray (OptGet parsed (js "choices"))) eqn:Ha; [|discriminate].
    cbn [negb]. intros H. injection H as <-. now exists s.
Qed.

Lemma for_matches_yielded (ms : list (option jsstring)) :
  exists n,
    Forall2 (fun m item => parse_item m = Ok item) (firstn n ms) (yielded (for_matches ms))
    /\ match thrown (for_matches ms) with
       | None => firstn n ms = ms
       | Some e => exists m, nth_error ms n = Some m /\ parse_item m = Throw e
       end.
Proof.
  induction ms as [|m ms [n [Hy Ht]]].
  - exists O. split; [constructor | reflexivity].
  - cbn [for_matches]. destruct (parse_item m) as [item|e] eqn:Hm.
    + exists (S n). rewrite andThen_returns. cbn [firstn app yielded thrown nth_error].
      split; [now constructor|].
      destruct (thrown (for_matches ms)); [exact Ht | now rewrite Ht].
    + exists O. split; [constructor|]. now exists m.
Qed.

(** X7: the events yielded are the items of the first frames of the text
    received, one per frame and in order: the generator neither skips a
    frame nor yields anything else. When it returns it has yielded every
    frame; when it throws, the exception is the one the next frame raised. *)
Theorem yielded_are_the_leading_frames (reads : list (list byte)) :
  exists n,
    Forall2 (fun m item => parse_item m = Ok item)
            (firstn n (frames reads)) (yielded (read_loop reads []))
    /\ match thrown (read_loop reads []) with
       | None => firstn n (frames reads) = frames reads
       | Some e => exists m, nth_error (frames reads) n = Some m /\ parse_item m = Throw e
       end.
Proof. rewrite read_loop_decoded. apply for_matches_yielded. Qed.

Lemma for_matches_In (ms : list (option jsstring)) (item : value) :
  In item (yielded (for_matches ms)) -> exists m, In m ms /\ parse_item m = Ok item.
Proof.
  induction ms as [|m ms IH]; cbn [for_matches]; [intros []|].
  destruct (parse_item m) as [first|e] eqn:Hm; [|intros []].
  rewrite andThen_returns. cbn [yielded app]. intros [<- | H].
  - exists m. split; [now left | exact Hm].
  - destruct (IH H) as [m' [Hin Hp]]. exists m'. split; [now right | exact Hp].
Qed.

(** X8: every event the generator yields has passed both checks: it is what
    [JSON.parse] gave for a frame of the text received, its [error.message]
    is not truthy and its [choices] is an array. *)
Theorem yielded_events_are_valid (reads : list (list byte)) (item : value) :
  In item (yielded (read_loop reads [])) ->
  exists m,
    In (Some m) (frames reads)
    /\ JSON_parse m = Ok item
    /\ Boolean (OptGet (OptGet item (js "error")) (js "message")) = false
    /\ isArray (OptGet item (js "choices")) = true.
Proof.
  rewrite read_loop_decoded. fold (frames reads). intros H.
  apply for_matches_In in H as [f [Hin Hp]].
  apply parse_item_Ok in Hp as [m [-> Hrest]]. now exists m.
Qed.

(** X9: chunks that arrive later only add to what has been yielded, and
    once the generator has thrown, nothing that arrives later is read: the
    run is the same whatever follows. *)
Theorem later_chunks_only_append (reads more : list (list byte)) :
  (exists rest,
     yielded (read_loop (reads ++ more) []) = yielded (read_loop reads []) ++ rest)
  /\ (forall e, thrown (read_loop reads []) = Some e ->
        read_loop (reads ++ more) [] = read_loop reads []).
Proof.
  rewrite StreamSpec.read_loop_resume. unfold andThen.
  destruct (thrown (read_loop reads [])) as [e|] eqn:Ht.
  - split; [exists []; now rewrite app_nil_r | reflexivity].
  - split; [eexists; reflexivity | discriminate].
Qed.

(** X10: a frame [JSON.parse] rejects ends the stream with the exception of
    [JSON.parse]: the events of the frames before it have been yielded, and
    nothing after. The frame is not skipped. *)
Theorem unparsable_frame_aborts (reads : list (list byte))
    (earlier later : list (option jsstring)) (m : jsstring)
    (items : list value) (e : exn) :
  frames reads = earlier ++ Some m :: later ->
  for_matches earlier = returns items ->
  JSON_parse m = Throw e ->
  read_loop reads [] = throws items e.
Proof.
  intros Hf He Hp.
  rewrite read_loop_decoded. fold (frames reads). rewrite Hf, for_matches_app, He.
  cbn [for_matches]. unfold parse_item. rewrite Hp. cbn [bind].
  unfold andThen, returns, throws. simpl. now rewrite app_nil_r.
Qed.

(** X11: chunks and malformed bytes move no line: the text received holds
    exactly as many line feeds as the chunks hold line-feed bytes, whatever
    the bytes and wherever the chunks end; so it holds as many as the whole
    body decoded at once. *)
Theorem chunking_keeps_line_feeds (reads : list (list byte)) :
  line_feeds (decoded reads) = line_feed_bytes (List.concat reads)
  /\ line_feeds (decoded reads) = line_feeds (Utf8.decode (List.concat reads)).
Proof.
  split; [apply decoded_line_feeds|].
  now rewrite decoded_line_feeds, decode_line_feeds.
Qed.

(** X12: every event has a line of its own: the generator yields at most one
    event per frame, and the body holds at least one line-feed byte per
    frame. *)
Theorem one_line_feed_per_event (reads : list (list byte)) :
  (List.length (yielded (read_loop reads [])) <= List.length (frames reads)
   /\ List.length (frames reads) <= line_feed_bytes (List.concat reads))%nat.
Proof.
  split; [|apply frames_length].
  rewrite read_loop_decoded. apply for_matches_length.
Qed.

(** X13: until a line-feed byte arrives the loop only buffers: nothing is
    matched, parsed, yielded or thrown, and the buffer is all the text
    received. *)
Theorem nothing_before_a_line_feed (reads : list (list byte)) :
  line_feed_bytes (List.concat reads) = 0%nat ->
  read_loop reads [] = returns [] /\ unfinishedLine_after reads = decoded reads.
Proof.
  intros H. rewrite <- decoded_line_feeds in H.
  apply (count_occ_not_In Z.eq_dec) in H.
  split.
  - rewrite read_loop_decoded, wholeLines_no_LF by exact H. reflexivity.
  - unfold unfinishedLine_after. rewrite unfinishedLine_from by (simpl; tauto).
    now apply next_unfinishedLine_id.
Qed.

(** X14: the generator reads the body of an [ok] response only: a run that
    yields an event, or that ends without an exception, is the read loop over
    the chunks of a response that [fetch] delivered with [ok] set and a
    body. A rejected request, a response that is not [ok] and a missing
    body yield nothing and throw. *)
Theorem stream_needs_an_ok_response (this : ChatClient)
    (fetch : Request -> result Response) (messages : value) (config : option props) :
  yielded (getChatStream this fetch messages config) <> []
  \/ thrown (getChatStream this fetch messages config) = None ->
  exists stream reads,
    fetch (getChatStream_request this messages config) = Ok stream
    /\ ok stream = true
    /\ chunks stream = Some reads
    /\ getChatStream this fetch messages config = read_loop reads [].
Proof.
  unfold getChatStream.
  destruct (fetch (getChatStream_request this messages config)) as [stream|e].
  - destruct (ok stream) eqn:Hok; cbn [negb].
    + destruct (chunks stream) as [reads|] eqn:Hc.
      * intros _. now exists stream, reads.
      * cbn. intros [H | H]; [now contradiction H | discriminate H].
    + cbn. intros [H | H]; [now contradiction H | discriminate H].
  - cbn. intros [H | H]; [now contradiction H | discriminate H].
Qed.

End WithRuntime.

(** *** Concrete streams, run on the reference runtime *)

(** The example stream: its one frame is the line without [data: ]. *)
Lemma frames_are_whole_lines_witness :
  exists m body,
    Some (js hi_frame) = Some m
    /\ m = js "{" ++ body
    /\ Regex.closes_frame body = true
    /\ In (js "data: " ++ m) (wholeLines (decoded [hi_stream])).
Proof.
  apply (frames_are_whole_lines [hi_stream]).
  replace (frames [hi_stream]) with [Some (js hi_frame)] by (vm_compute; reflexivity).
  left. reflexivity.
Defined.

(** The example frame sent with CR LF line ends. *)
Lemma carriage_return_lines_are_no_frames_witness :
  frames [Utf8.bytes "data: {'choices':[]}" ++ [x0d; x0a; x0d; x0a]] = []
  /\ read_loop (rt := Json.reference)
       [Utf8.bytes "data: {'choices':[]}" ++ [x0d; x0a; x0d; x0a]] []
     = returns [].
Proof.
  apply (carriage_return_lines_are_no_frames (rt := Json.reference)).
  replace (wholeLines (decoded [Utf8.bytes "data: {'choices':[]}" ++ [x0d; x0a; x0d; x0a]]))
    with [js "data: {'choices':[]}" ++ [CR]; [] ++ [CR]] by (vm_compute; reflexivity).
  constructor; [eexists; reflexivity|].
  constructor; [eexists; reflexivity | constructor].
Defined.

(** The event of the example stream. *)
Lemma yielded_events_are_valid_witness :
  exists m,
    In (Some m) (frames [hi_stream])
    /\ JSON_parse (Runtime := Json.reference) m = Ok hi_item
    /\ Boolean (OptGet (OptGet hi_item (js "error")) (js "message")) = false
    /\ isArray (OptGet hi_item (js "choices")) = true.
Proof.
  apply (yielded_events_are_valid (rt := Json.reference) [hi_stream]).
  replace (read_loop (rt := Json.reference) [hi_stream] []) with (returns [hi_item])
    by (vm_compute; reflexivity).
  left. reflexivity.
Defined.

(** A frame that is not JSON between two that are. *)
Lemma unparsable_frame_aborts_witness :
  read_loop (rt := Json.reference)
    [Utf8.bytes "data: {'choices':[]}" ++ [x0a]
     ++ Utf8.bytes "data: {oops}" ++ [x0a]
     ++ Utf8.bytes "data: {'choices':[1]}" ++ [x0a]] []
  = throws [choices_frame []] SyntaxError.
Proof.
  apply (unparsable_frame_aborts (rt := Json.reference) _
           [Some (js "{'choices':[]}")] [Some (js "{'choices':[1]}")]
           (js "{oops}")).
  - vm_compute. reflexivity.
  - vm_compute. reflexivity.
  - vm_compute. reflexivity.
Defined.

(** A frame in two chunks, its line feed not yet received. *)
Lemma nothing_before_a_line_feed_witness :
  read_loop (rt := Json.reference)
    [Utf8.bytes "data: {'choices'"; Utf8.bytes ":[]}"] []
  = returns []
  /\ unfinishedLine_after [Utf8.bytes "data: {'choices'"; Utf8.bytes ":[]}"]
     = decoded [Utf8.bytes "data: {'choices'"; Utf8.bytes ":[]}"].
Proof.
  apply (nothing_before_a_line_feed (rt := Json.reference)).
  vm_compute. reflexivity.
Defined.

(** The example call ends without an exception. *)
Lemma stream_needs_an_ok_response_witness :
  exists stream reads,
    answers hi_stream (getChatStream_request (rt := Json.reference) client (user_says "hi") None)
    = Ok stream
    /\ ok stream = true
    /\ chunks stream = Some reads
    /\ getChatStream (rt := Json.reference) client (answers hi_stream) (user_says "hi") None
       = read_loop (rt := Json.reference) reads [].
Proof.
  apply (stream_needs_an_ok_response (rt := Json.reference)).
  right. vm_compute. reflexivity.
Defined.

End StreamMore.

(** ** More on the request and the non-streaming call *)

Module ClientMore.
Import Text Js Chat KeyOrder Samples TextFacts JsFacts ClientFacts.

Section WithRuntime.
Context {rt : Runtime}.

(** X15: the payload names each field once. Its keys are, in the order
    the object enumerates them and [JSON.stringify] writes them: the array
    indices the configuration supplies, in ascending order; the seven fields
    of the literal, in the literal's order (an override keeps the place of
    the field it replaces); the other keys the configuration adds. [stream]
    goes last unless the configuration names it. *)
Theorem payload_keys (messages : value) (config : option props) :
  exists (indices : list (jsstring * N)) (extra : list jsstring),
    map fst (payload messages config)
    = map fst indices
      ++ map js ["messages"; "temperature"; "top_p"; "frequency_penalty";
                 "presence_penalty"; "max_tokens"; "stop"]%string
      ++ extra
    /\ Forall (fun kn => array_index (fst kn) = Some (snd kn)) indices
    /\ StronglySorted N.le (map snd indices)
    /\ Forall (fun k => array_index k = None) extra
    /\ (forall k, In k (map fst indices ++ extra) -> supplied config k <> None)
    /\ NoDup (map fst (payload messages config))
    /\ map fst (stream_payload messages config)
       = match supplied config (js "stream") with
         | Some _ => map fst (payload messages config)
         | None => map fst (payload messages config) ++ [js "stream"]
         end
    /\ NoDup (map fst (stream_payload messages config)).
Proof.
  assert (Hshape : payload_shape (match config with Some cfg => cfg | None => [] end)
                     (map fst (payload messages config))).
  { assert (Hlit : payload_shape [] (map fst ((js "messages", messages) :: defaults))).
    { exists [], []. rewrite literal_keys, app_nil_r.
      repeat split; try constructor. intros k []. }
    unfold payload. destruct config as [cfg|]; [|exact Hlit].
    apply (payload_shape_spread cfg [] _ Hlit). }
  destruct Hshape as [indices [extra [Hkeys [Hi [Hs [He Hin]]]]]].
  exists indices, extra.
  split; [exact Hkeys|]. split; [exact Hi|]. split; [exact Hs|]. split; [exact He|].
  split.
  { intros k Hk. apply Hin in Hk. destruct config as [cfg|]; [|contradiction].
    unfold supplied. intros E. apply lookup_None in E. apply E.
    rewrite map_rev. now apply in_rev in Hk. }
  split; [apply NoDup_payload|].
  split; [|apply NoDup_set_prop, NoDup_payload].
  unfold stream_payload. rewrite keys_set_prop, lookup_payload.
  destruct (supplied config (js "stream")); reflexivity.
Qed.

(** X16: the call returns a value exactly when the body parses, its [error] is
    not truthy, the finish reason of its first choice is the string "stop"
    and [usage.total_tokens] can be read and printed for the log; the value
    is the parsed body. *)
Theorem getChatResponse_returns (this : ChatClient) (fetch : Request -> result Response)
    (messages : value) (config : option props) (r : value) :
  getChatResponse this fetch messages config = Ok r <->
  exists res error usage total_tokens logged,
    fetch (getChatResponse_request this messages config) = Ok res
    /\ json res = Ok r
    /\ Get r (js "error") = Ok error
    /\ Boolean error = false
    /\ top_finish_reason r = Ok (JStr (js "stop"))
    /\ Get r (js "usage") = Ok usage
    /\ Get usage (js "total_tokens") = Ok total_tokens
    /\ ToString total_tokens = Ok logged.
Proof.
  unfold getChatResponse. split.
  - destruct (fetch _) as [res|] eqn:Hfetch; [|discriminate]. cbn [bind].
    destruct (json res) as [result|] eqn:Hjson; [|discriminate]. cbn [bind].
    destruct (Get result (js "error")) as [error|] eqn:Herr; [|discriminate]. cbn [bind].
    destruct (Boolean error) eqn:Hb.
    { destruct (Get error (js "message")) as [message|]; [|discriminate]. cbn [bind].
      destruct (throw_new_Error_throws (A := value) message) as [e [-> _]]. discriminate. }
    destruct (top_finish_reason result) as [finish_reason|] eqn:Hf; [|discriminate].
    cbn [bind].
    destruct (strict_equals_string finish_reason (js "stop")) eqn:Hs; cbn [negb].
    2: { destruct (ToString finish_reason); discriminate. }
    apply strict_equals_string_true in Hs. subst finish_reason.
    destruct (Get result (js "usage")) as [usage|] eqn:Hu; [|discriminate]. cbn [bind].
    destruct (Get usage (js "total_tokens")) as [total_tokens|] eqn:Ht; [|discriminate].
    cbn [bind].
    destruct (ToString total_tokens) as [logged|] eqn:Hl; [|discriminate]. cbn [bind].
    intros H. injection H as <-.
    exists res, error, usage, total_tokens, logged. repeat split; assumption || reflexivity.
  - intros [res [error [usage [total_tokens [logged
      [Hfetch [Hjson [Herr [Hb [Hf [Hu [Ht Hl]]]]]]]]]]]].
    rewrite Hfetch. cbn [bind]. rewrite Hjson. cbn [bind]. rewrite Herr. cbn [bind]. rewrite Hb, Hf. cbn [bind].
    replace (strict_equals_string (JStr (js "stop")) (js "stop")) with true
      by (symmetry; now apply strict_equals_string_true).
    cbn [negb]. rewrite Hu. cbn [bind]. rewrite Ht. cbn [bind]. now rewrite Hl.
Qed.

(** X17: a truthy [error] in the body makes the call fail before the choices are
    looked at, whatever finish reason and usage the body carries: with the
    message of the error when that is a string, with an empty message when
    the error has none. *)
Theorem error_field_aborts (this : ChatClient) (fetch : Request -> result Response)
    (messages : value) (config : option props) (res : Response) (result error : value) :
  fetch (getChatResponse_request this messages config) = Ok res ->
  json res = Ok result ->
  Get result (js "error") = Ok error ->
  Boolean error = true ->
  exists e,
    getChatResponse this fetch messages config = Throw e
    /\ (forall s, Get error (js "message") = Ok (JStr s) -> e = Error s)
    /\ (Get error (js "message") = Ok undefined -> e = Error []).
Proof.
  intros Hfetch Hjson Herr Hb. unfold getChatResponse.
  rewrite Hfetch. cbn [bind]. rewrite Hjson. cbn [bind]. rewrite Herr. cbn [bind].
  rewrite Hb. destruct (Get error (js "message")) as [message|e'].
  - cbn [bind]. destruct (throw_new_Error_throws (A := value) message) as [e [He Hs]].
    exists e. split; [exact He|]. split.
    + intros s E. injection E as ->. now apply Hs.
    + intros E. injection E as ->. cbn in He. congruence.
  - exists e'. split; [reflexivity|]. split; intros; discriminate.
Qed.

(** X18: [getChatResponse] never looks at the status of the response: two
    responses with the same body give the same outcome, whatever [ok],
    [status] and [statusText] say. *)
Theorem http_status_is_not_checked (this : ChatClient)
    (fetch fetch' : Request -> result Response)
    (messages : value) (config : option props) (res res' : Response) :
  fetch (getChatResponse_request this messages config) = Ok res ->
  fetch' (getChatResponse_request this messages config) = Ok res' ->
  chunks res = chunks res' ->
  getChatResponse this fetch messages config = getChatResponse this fetch' messages config.
Proof.
  intros H H' Hc. unfold getChatResponse. rewrite H, H'. cbn [bind].
  unfold json, text. now rewrite Hc.
Qed.

End WithRuntime.

(** *** Concrete calls, run on the reference runtime *)

(** A configuration with the array index [0] among its keys: the index opens
    the payload and the body; the same holds of a parsed object. *)
Lemma array_index_key_goes_first :
  body (getChatResponse_request (rt := Json.reference) client (user_says "hi")
          (Some [(js "b", one); (js "0", JStr (js "zero"))]))
  = Some (js "{'0':'zero','messages':[{'role':'user','content':'hi'}],'temperature':0.7,'top_p':1,'frequency_penalty':0,'presence_penalty':0,'max_tokens':60,'stop':'','b':1}")
  /\ JSON_parse (Runtime := Json.reference) (js "{'b':1,'10':2,'9':3,'01':4}")
     = Ok (JObj [(js "9", JNum (Number_of_decimal false 3 0));
                 (js "10", JNum (Number_of_decimal false 2 0));
                 (js "b", one);
                 (js "01", JNum (Number_of_decimal false 4 0))]).
Proof. vm_compute. split; reflexivity. Qed.

(** A body with an error and, besides, a choice that stopped and a usage. *)
Lemma error_field_aborts_witness :
  getChatResponse (rt := Json.reference) client
    (answers (Utf8.bytes "{'error':{'message':'quota'},'choices':[{'finish_reason':'stop'}],'usage':{'total_tokens':3}}"))
    (user_says "hi") None
  = Throw (Error (js "quota")).
Proof.
  edestruct (error_field_aborts (rt := Json.reference) client
               (answers (Utf8.bytes "{'error':{'message':'quota'},'choices':[{'finish_reason':'stop'}],'usage':{'total_tokens':3}}"))
               (user_says "hi") None) as [e [Hrun [Hmsg _]]].
  - vm_compute. reflexivity.
  - vm_compute. reflexivity.
  - vm_compute. reflexivity.
  - vm_compute. reflexivity.
  - rewrite Hrun. f_equal. apply Hmsg. vm_compute. reflexivity.
Defined.

(** The "stop" response under status 500 and under status 200. *)
Lemma http_status_is_not_checked_witness :
  getChatResponse (rt := Json.reference) client
    (fun _ => Ok {| ok := false; status := 500; statusText := js "Internal Server Error";
                    chunks := Some [Utf8.bytes stop_response] |})
    (user_says "hi") None
  = getChatResponse (rt := Json.reference) client (answers (Utf8.bytes stop_response))
      (user_says "hi") None.
Proof.
  eapply (http_status_is_not_checked (rt := Json.reference)).
  - reflexivity.
  - reflexivity.
  - reflexivity.
Defined.

End ClientMore.
